(** * InterOp metric streams and the cycle simulator

    A shallow embedding of [src/apps/cyclesim.cpp] (the orchestrated,
    filtered copy of the InterOp metric files of a run folder) and of the
    binary metric-stream codec that it calls.

    - [CycleSim] follows [cyclesim.cpp] function by function.  The calls
      into the InterOp library ([io::read_interop], [io::write_interop]) are
      the fields of a [world]; every call is recorded in a trace.  What the
      functions print ([std::cout], and [std::cerr] under [kPrintError]) is
      left out, as are [main]'s handling of its arguments and its copies of
      the XML files.
    - [Codec] holds the header parser, the stream reader and the stream
      writer of the metric files.
    - [CycleSimFacts] and [CodecFacts] hold the properties. *)

From Stdlib Require Import ZArith NArith List Lia Bool.
From Stdlib Require Strings.Byte.
From Equations Require Import Equations.
From stdpp Require Import base tactics option list numbers.
Import ListNotations.

#[local] Open Scope Z_scope.

Module CycleSim.

(** ** Exit codes and exceptions *)

(** [enum exit_codes], cyclesim.cpp lines 58-72. *)
Inductive exit_codes : Type :=
| SUCCESS
| INVALID_ARGUMENTS
| NO_INTEROPS_FOUND
| BAD_FORMAT
| UNEXPECTED_EXCEPTION
| EMPTY_INTEROP.

(** The [int] an enumerator converts to. *)
Definition exit_code (e : exit_codes) : Z :=
  match e with
  | SUCCESS => 0
  | INVALID_ARGUMENTS => 1
  | NO_INTEROPS_FOUND => 2
  | BAD_FORMAT => 3
  | UNEXPECTED_EXCEPTION => 4
  | EMPTY_INTEROP => 5
  end.

(** What a call into the library can throw, as the [catch] clauses of
    [read_metrics_from_file] tell the cases apart. *)
Inductive exception : Type :=
| file_not_found_exception
| bad_format_exception
| incomplete_file_exception
| std_exception       (* any other class derived from std::exception *)
| foreign_exception.  (* a thrown object that is no std::exception *)

(** ** Metric sets *)

(** A metric set as [cyclesim.cpp] uses it: the record vector [metrics()],
    [version()], and the header part that the constructor
    [MetricSet(vec, version, header)] takes from another set. *)
Record metric_set (T H : Type) : Type := MetricSet {
  metrics : list T;
  version : Z;
  header : H
}.
Arguments MetricSet {T H} _ _ _.
Arguments metrics {T H} _.
Arguments version {T H} _.
Arguments header {T H} _.

(** [metrics.size()] *)
Definition size {T H} (m : metric_set T H) : nat := length (metrics m).

(** One per-read entry of a tile record: [read()] is an unsigned integer,
    the measured values are [R]. *)
Record read_metric (R : Type) : Type := ReadMetric {
  read : N;
  read_values : R
}.
Arguments ReadMetric {R} _ _.
Arguments read {R} _.
Arguments read_values {R} _.

(** A tile record: the tile-level fields [B] and the vector
    [read_metrics()].  [TileMetric (tile_fields t) reads] is the constructor
    [tile_metric(t, reads)], which copies the tile-level fields of [t]. *)
Record tile_metric (B R : Type) : Type := TileMetric {
  tile_fields : B;
  read_metrics : list (read_metric R)
}.
Arguments TileMetric {B R} _ _.
Arguments tile_fields {B R} _.
Arguments read_metrics {B R} _.

(** The per-cycle metric sets [copy_cycle_metrics] is instantiated with in
    [write_interops]. *)
Inductive cycle_category : Type :=
| error_metrics
| corrected_intensity_metrics
| extraction_metrics
| q_metrics
| image_metrics.

(** The metric categories of the InterOp folder (cyclesim.cpp lines 18-26). *)
Inductive category : Type :=
| tile_metrics
| cycle_metrics (c : cycle_category)
| index_metrics.

(** The record and header types of the library, which the application sees
    only through [cycle()], [read()] and [read_metrics()]. *)
Class metric_types : Type := {
  tile_base : Type;
  read_base : Type;
  tile_header : Type;
  cycle_metric : cycle_category -> Type;
  cycle_header : cycle_category -> Type;
  cycle : forall c, cycle_metric c -> N
}.
Arguments cycle {_ c} _.

(** How a call ends: it returns a value or leaves by an exception. *)
Inductive outcome (A : Type) : Type :=
| Returns (a : A)
| Throws (e : exception).
Arguments Returns {A} _.
Arguments Throws {A} _.

(** The tile records, the tile metric set and the per-cycle metric sets. *)
Abbreviation tile_metric_t := (tile_metric tile_base read_base).
Abbreviation tile_metric_set := (metric_set tile_metric_t tile_header).
Abbreviation cycle_metric_set c :=
  (metric_set (cycle_metric c) (cycle_header c)).

Section Sets.
Context {MT : metric_types}.

(** ** The filters

    The loops of [copy_cycle_metrics] (lines 263-271) and
    [copy_tile_metrics] (lines 218-232): [continue] leaves the accumulator
    as it is, [push_back] appends. *)

(** Lines 265-269: [subset] after the loop over [metrics.metrics()]. *)
Definition cycle_subset {c} (max_cycle : N) (ms : list (cycle_metric c))
  : list (cycle_metric c) :=
  fold_left
    (fun subset beg =>
       if (max_cycle <? cycle beg)%N then subset else subset ++ [beg])
    ms [].

(** Line 271: [MetricSet metricsOut(subset, metrics.version(), metrics)]. *)
Definition filter_by_cycle {c} (max_cycle : N) (m : cycle_metric_set c)
  : cycle_metric_set c :=
  MetricSet (cycle_subset max_cycle (metrics m)) (version m) (header m).

(** Lines 222-227: [reads] after the inner loop over [beg->read_metrics()]. *)
Definition reads_subset (max_read : N) (rs : list (read_metric read_base))
  : list (read_metric read_base) :=
  fold_left
    (fun reads rbeg =>
       if (max_read <? read rbeg)%N then reads else reads ++ [rbeg])
    rs [].

(** Lines 220-230: [subset] after the outer loop. *)
Definition tile_subset (max_read : N) (ts : list tile_metric_t)
  : list tile_metric_t :=
  fold_left
    (fun subset beg =>
       subset ++ [TileMetric (tile_fields beg)
                             (reads_subset max_read (read_metrics beg))])
    ts [].

(** Line 232: [tile_metrics metricsOut(subset, metrics.version(), metrics)]. *)
Definition filter_by_read (max_read : N) (m : tile_metric_set)
  : tile_metric_set :=
  MetricSet (tile_subset max_read (metrics m)) (version m) (header m).

(** ** Calls into the library

    Every call is logged.  A write is logged with what it threw, if
    anything. *)
Inductive event : Type :=
| read_call (cat : category)
| write_tile_call (m : tile_metric_set) (thrown : option exception)
| write_cycle_call (c : cycle_category) (m : cycle_metric_set c)
                   (thrown : option exception).

Definition trace : Type := list event.

(** The library and the two run folders.  [io::read_interop(filename,
    metrics)] fills the set passed by reference and may throw after it has
    filled in part of it: a read is the set as the call leaves it, and what
    was thrown.  What [io::write_interop] throws may depend on the calls
    made before it. *)
Class world : Type := {
  read_interop_tile : tile_metric_set * option exception;
  read_interop_cycle : forall c, cycle_metric_set c * option exception;
  write_interop_tile : trace -> tile_metric_set -> option exception;
  write_interop_cycle :
    forall c, trace -> cycle_metric_set c -> option exception
}.

(** ** A state and exception monad over the trace *)

Definition M (A : Type) : Type := trace -> trace * outcome A.

Definition ret {A} (a : A) : M A := fun t => (t, Returns a).

Definition throw {A} (e : exception) : M A := fun t => (t, Throws e).

Definition bind {A B} (k : A -> M B) (m : M A) : M B :=
  fun t =>
    match m t with
    | (t', Returns a) => k a t'
    | (t', Throws e) => (t', Throws e)
    end.

(** [try { body } catch(const io::bad_format_exception&) { return BAD_FORMAT; }]
    followed by [rest]: any other exception leaves the function. *)
Definition try_write (body : M unit) (rest : M Z) : M Z :=
  fun t =>
    match body t with
    | (t', Returns _) => rest t'
    | (t', Throws bad_format_exception) => (t', Returns (exit_code BAD_FORMAT))
    | (t', Throws e) => (t', Throws e)
    end.

End Sets.

Arguments world _ : clear implicits.
Arguments read_interop_tile {MT W} : rename.
Arguments read_interop_cycle {MT W} c : rename.
Arguments write_interop_tile {MT W} _ _ : rename.
Arguments write_interop_cycle {MT W} c _ _ : rename.

(** [x ← m; k] is [bind (fun x => k) m]. *)
#[global] Instance M_ret {MT : metric_types} : MRet M := @ret MT.
#[global] Instance M_bind {MT : metric_types} : MBind M := @bind MT.

Section Application.
Context {MT : metric_types} {W : world MT}.

(** [io::read_interop(filename, metrics)] on a tile set. *)
Definition read_tile : M (tile_metric_set * option exception) :=
  fun t => (t ++ [read_call tile_metrics], Returns read_interop_tile).

(** [io::read_interop(filename, metrics)] on a per-cycle set. *)
Definition read_cycle (c : cycle_category)
  : M (cycle_metric_set c * option exception) :=
  fun t =>
    (t ++ [read_call (cycle_metrics c)], Returns (read_interop_cycle c)).

(** [io::write_interop(output, metrics)] on a tile set. *)
Definition write_tile (m : tile_metric_set) : M unit :=
  fun t =>
    let thrown := write_interop_tile t m in
    (t ++ [write_tile_call m thrown],
     match thrown with None => Returns tt | Some e => Throws e end).

(** [io::write_interop(output, metrics)] on a per-cycle set. *)
Definition write_cycle (c : cycle_category) (m : cycle_metric_set c)
  : M unit :=
  fun t =>
    let thrown := write_interop_cycle c t m in
    (t ++ [write_cycle_call c m thrown],
     match thrown with None => Returns tt | Some e => Throws e end).

(** [read_metrics_from_file], lines 165-189.  The result is the returned
    [int] and the set [metrics] as the function leaves it. *)
Definition read_metrics_from_file {T H}
    (read_interop : M (metric_set T H * option exception))
  : M (Z * metric_set T H) :=
  '(metrics, thrown) ← read_interop;
  let after_try :=
    if (size metrics =? 0)%nat
    then ret (exit_code EMPTY_INTEROP, metrics)
    else ret (0, metrics) in
  match thrown with
  | Some file_not_found_exception => ret (1, metrics)
  | Some bad_format_exception => ret (exit_code BAD_FORMAT, metrics)
  | Some incomplete_file_exception => after_try
  | Some std_exception => ret (exit_code UNEXPECTED_EXCEPTION, metrics)
  | Some foreign_exception => throw foreign_exception
  | None => after_try
  end.

(** [copy_tile_metrics], lines 198-243. *)
Definition copy_tile_metrics (max_read : N) : M Z :=
  '(res, metrics) ← read_metrics_from_file read_tile;
  if negb (res =? 0) then ret res else
  try_write (write_tile metrics)
    (let metricsOut := filter_by_read max_read metrics in
     try_write (write_tile metricsOut) (ret 0)).

(** [copy_tile_metrics], lines 198-243, with the code between its two
    writes as a computation of its own.  [build metrics] is lines 216-232,
    which give [metricsOut]: the loops and the constructors allocate
    ([push_back], the copies of the records), nothing there is inside a
    [try], and what is thrown there leaves [copy_tile_metrics] as it is. *)
Definition copy_tile_metrics_building
    (build : tile_metric_set -> M tile_metric_set) : M Z :=
  '(res, metrics) ← read_metrics_from_file read_tile;
  if negb (res =? 0) then ret res else
  try_write (write_tile metrics)
    (metricsOut ← build metrics;
     try_write (write_tile metricsOut) (ret 0)).

(** [copy_cycle_metrics<MetricSet>], lines 252-282. *)
Definition copy_cycle_metrics (c : cycle_category) (max_cycle : N) : M Z :=
  '(res, metrics) ← read_metrics_from_file (read_cycle c);
  if negb (res =? 0) then ret res else
  let metricsOut := filter_by_cycle max_cycle metrics in
  try_write (write_cycle c metricsOut) (ret 0).

(** [encode_error], lines 290-293. *)
Definition encode_error (res type : Z) : Z := res * 100 + type.

(** [if(res == 0) valid_count++;] *)
Definition count_valid (res valid_count : Z) : Z :=
  if res =? 0 then valid_count + 1 else valid_count.

(** [write_interops], lines 302-327.  [after_error] is the code from line
    313 on, which runs whether or not the block of lines 308-312 does. *)
Definition write_interops (max_cycle max_read cycle_to_align : N) : M Z :=
  let after_error (valid_count : Z) : M Z :=
    res ← copy_cycle_metrics corrected_intensity_metrics max_cycle;
    if 1 <? res then ret (encode_error res 2) else
    let valid_count := count_valid res valid_count in
    res ← copy_cycle_metrics extraction_metrics max_cycle;
    if 1 <? res then ret (encode_error res 2) else
    let valid_count := count_valid res valid_count in
    res ← copy_cycle_metrics q_metrics max_cycle;
    if 1 <? res then ret (encode_error res 2) else
    let valid_count := count_valid res valid_count in
    res ← copy_cycle_metrics image_metrics max_cycle;
    if 1 <? res then ret (encode_error res 2) else
    let valid_count := count_valid res valid_count in
    if valid_count =? 0 then ret (exit_code NO_INTEROPS_FOUND) else ret 0 in
  res ← copy_tile_metrics max_read;
  if 1 <? res then ret (encode_error res 1) else
  let valid_count := count_valid res 0 in
  if (cycle_to_align <? max_cycle)%N then
    res ← copy_cycle_metrics error_metrics max_cycle;
    if 1 <? res then ret (encode_error res 2) else
    after_error (count_valid res valid_count)
  else after_error valid_count.

(** [main] passes [cycle_to_align = 25] (line 119). *)
Definition cycle_to_align : N := 25.

End Application.

(** ** Vocabulary of the statements *)

#[global] Instance cycle_category_eq_dec : EqDecision cycle_category.
Proof. solve_decision. Defined.

#[global] Instance category_eq_dec : EqDecision category.
Proof. solve_decision. Defined.

(** The copy functions [write_interops] calls: [copy_tile_metrics] and the
    instantiations of [copy_cycle_metrics]. *)
Inductive copy_call : Type :=
| tile_copy
| cycle_copy (c : cycle_category).

(** The category a call reads and writes. *)
Definition category_of (k : copy_call) : category :=
  match k with
  | tile_copy => tile_metrics
  | cycle_copy c => cycle_metrics c
  end.

(** The second argument [write_interops] gives [encode_error] after the
    call [k]. *)
Definition error_type (k : copy_call) : Z :=
  match k with
  | tile_copy => 1
  | cycle_copy _ => 2
  end.

(** The calls of [write_interops] in program order. *)
Definition plan (max_cycle cycle_to_align : N) : list copy_call :=
  tile_copy
  :: (if (cycle_to_align <? max_cycle)%N then [cycle_copy error_metrics]
      else [])
  ++ [cycle_copy corrected_intensity_metrics; cycle_copy extraction_metrics;
      cycle_copy q_metrics; cycle_copy image_metrics].


(** The read calls of a trace, in order. *)
Definition reads_of {MT : metric_types} (t : trace) : list category :=
  omap (fun ev => match ev with read_call cat => Some cat | _ => None end) t.

(** The categories of the writes of a trace that did not throw, in order. *)
Definition written {MT : metric_types} (t : trace) : list category :=
  omap (fun ev =>
          match ev with
          | write_tile_call _ None => Some tile_metrics
          | write_cycle_call c _ None => Some (cycle_metrics c)
          | _ => None
          end) t.


(** The tile file of the output folder after the calls of a trace.
    [io::write_interop] is not under [src/]: what a write leaves of the
    file is the parameter [stored file m thrown], from the file before the
    call ([None] where there is none), the set [m] to write, and what the
    call threw. *)
Definition destination_tile {MT : metric_types}
    (stored : option tile_metric_set -> tile_metric_set -> option exception
              -> option tile_metric_set)
    (t : trace) : option tile_metric_set :=
  fold_left
    (fun file ev =>
       match ev with
       | write_tile_call m thrown => stored file m thrown
       | _ => file
       end) t None.

(** A write that returns has written its set: the one property of
    [io::write_interop] that the contents of the output folder rest on.
    What a write that throws leaves of the file is left open. *)
Definition writes_what_it_returns_from {MT : metric_types}
    (stored : option tile_metric_set -> tile_metric_set -> option exception
              -> option tile_metric_set) : Prop :=
  forall file m, stored file m None = Some m.

(** What [filter_by_read] makes of one tile record. *)
Definition keep_reads {MT : metric_types} (max_read : N) (t : tile_metric_t)
  : tile_metric_t :=
  TileMetric (tile_fields t)
             (filter (fun e => (read e <= max_read)%N) (read_metrics t)).

(** How a copy function ends after a write that threw [thrown]: the
    [catch] clause turns [bad_format_exception] into [BAD_FORMAT]. *)
Definition after_write (thrown : option exception) : outcome Z :=
  match thrown with
  | None => Returns 0
  | Some bad_format_exception => Returns (exit_code BAD_FORMAT)
  | Some e => Throws e
  end.

Section Plan.
Context {MT : metric_types} {W : world MT}.
Variables max_cycle max_read : N.

(** The call [k] as [write_interops] makes it. *)
Definition copy (k : copy_call) : M Z :=
  match k with
  | tile_copy => copy_tile_metrics max_read
  | cycle_copy c => copy_cycle_metrics c max_cycle
  end.

(** What the read of a call threw. *)
Definition read_thrown (k : copy_call) : option exception :=
  match k with
  | tile_copy => snd read_interop_tile
  | cycle_copy c => snd (read_interop_cycle c)
  end.

(** [metrics.size()] after the read of a call. *)
Definition read_size (k : copy_call) : nat :=
  match k with
  | tile_copy => size (fst read_interop_tile)
  | cycle_copy c => size (fst (read_interop_cycle c))
  end.



(** [write_interops] as a loop over its calls: after each call, [res > 1]
    returns the encoded error, otherwise [valid_count] is updated. *)
Fixpoint run_plan (ks : list copy_call) (valid_count : Z) : M Z :=
  match ks with
  | [] =>
      if valid_count =? 0 then ret (exit_code NO_INTEROPS_FOUND) else ret 0
  | k :: ks =>
      res ← copy k;
      if 1 <? res then ret (encode_error res (error_type k))
      else run_plan ks (count_valid res valid_count)
  end.

End Plan.

(** ** Sample run folders *)

(** Records reduced to a key and one value: a tile has a cluster count and
    per-read values, a per-cycle record is a pair of its cycle and a value. *)
Definition sample_types : metric_types := {|
  tile_base := N;
  read_base := N;
  tile_header := unit;
  cycle_metric := fun _ => (N * N)%type;
  cycle_header := fun _ => unit;
  cycle := fun _ r => fst r
|}.

Section Samples.
#[local] Existing Instance sample_types.

(** Two tiles, each with reads 1, 2 and 3. *)
Definition two_tiles : tile_metric_set :=
  MetricSet
    [TileMetric (7 : N)%N
       [ReadMetric 1 (10 : N)%N; ReadMetric 2 (20 : N)%N; ReadMetric 3 (30 : N)%N];
     TileMetric (8 : N)%N
       [ReadMetric 1 (11 : N)%N; ReadMetric 2 (21 : N)%N; ReadMetric 3 (31 : N)%N]]
    2 tt.

(** Records of cycles 1, 26 and 2, in this order. *)
Definition three_cycles (c : cycle_category) : cycle_metric_set c :=
  MetricSet [(1, 5); (26, 6); (2, 7)]%N 3 tt.

Definition no_tiles : tile_metric_set := MetricSet [] 2 tt.

Definition no_cycles (c : cycle_category) : cycle_metric_set c :=
  MetricSet [] 3 tt.

(** A run folder with no InterOp file. *)
Definition empty_folder : world sample_types := {|
  read_interop_tile := (no_tiles, Some file_not_found_exception);
  read_interop_cycle := fun c => (no_cycles c, Some file_not_found_exception);
  write_interop_tile := fun _ _ => None;
  write_interop_cycle := fun _ _ _ => None
|}.

(** A run folder whose only InterOp file is a tile file cut before its first
    record ends: the read throws and leaves no record. *)
Definition cut_tile_folder : world sample_types := {|
  read_interop_tile := (no_tiles, Some incomplete_file_exception);
  read_interop_cycle := fun c => (no_cycles c, Some file_not_found_exception);
  write_interop_tile := fun _ _ => None;
  write_interop_cycle := fun _ _ _ => None
|}.

(** A run folder whose only InterOp file is a tile file cut inside its third
    record: the read throws and leaves two records. *)
Definition partial_tile_folder : world sample_types := {|
  read_interop_tile := (two_tiles, Some incomplete_file_exception);
  read_interop_cycle := fun c => (no_cycles c, Some file_not_found_exception);
  write_interop_tile := fun _ _ => None;
  write_interop_cycle := fun _ _ _ => None
|}.

(** A run folder whose tile file has an unsupported version. *)
Definition bad_tile_folder : world sample_types := {|
  read_interop_tile := (no_tiles, Some bad_format_exception);
  read_interop_cycle := fun c => (no_cycles c, Some file_not_found_exception);
  write_interop_tile := fun _ _ => None;
  write_interop_cycle := fun _ _ _ => None
|}.

(** A complete run folder. *)
Definition full_folder : world sample_types := {|
  read_interop_tile := (two_tiles, None);
  read_interop_cycle := fun c => (three_cycles c, None);
  write_interop_tile := fun _ _ => None;
  write_interop_cycle := fun _ _ _ => None
|}.

(** A complete run folder and an output folder where the second write of
    the tile file fails. *)
Definition failing_rewrite_folder : world sample_types := {|
  read_interop_tile := (two_tiles, None);
  read_interop_cycle := fun c => (three_cycles c, None);
  write_interop_tile := fun t _ =>
    match written t with
    | [] => None
    | _ => Some bad_format_exception
    end;
  write_interop_cycle := fun _ _ _ => None
|}.

(** An output folder where a write that throws leaves no usable file. *)
Definition truncating (file : option tile_metric_set) (m : tile_metric_set)
    (thrown : option exception) : option tile_metric_set :=
  match thrown with
  | None => Some m
  | Some _ => None
  end.

End Samples.

End CycleSim.


(** * The metric-stream codec

    [io::read_interop], [io::write_interop] and the record layouts are
    declared in headers of the library that [cyclesim.cpp] and the stream
    tests only include.  This module is the codec as the specification
    describes it (sections 3, 4.1-4.4, 6 and 7): the format header, the
    record codecs, the stream reader and the stream writer. *)

Module Codec.

Abbreviation byte := Byte.byte.

(** Modelled from the spec: the error taxonomy of section 7, whose code is
    in the library's exception header and absent here.  [BadFormat] carries
    the reason sections 4.1 and 4.3 name. *)
Inductive format_error : Type :=
| UnsupportedVersion
| RecordSizeMismatch
| Corrupt.

Inductive error : Type :=
| FileNotFound
| IncompleteFile
| BadFormat (why : format_error)
| UnexpectedError.

Inductive result (A : Type) : Type :=
| Ok (a : A)
| Err (e : error).
Arguments Ok {A} _.
Arguments Err {A} _.

(** ** Fixed-width little-endian integers (section 4.2) *)

Definition u8 (b : byte) : N := Byte.to_N b.

(** The low eight bits of [n]. *)
Definition byte_of (n : N) : byte :=
  match Byte.of_N (n mod 256) with
  | Some b => b
  | None => Byte.x00
  end.

Definition decode_u16 (b0 b1 : byte) : N := (u8 b0 + 256 * u8 b1)%N.

Definition encode_u16 (n : N) : list byte := [byte_of n; byte_of (n / 256)].

Definition decode_u32 (b0 b1 b2 b3 : byte) : N :=
  (u8 b0 + 256 * (u8 b1 + 256 * (u8 b2 + 256 * u8 b3)))%N.

Definition encode_u32 (n : N) : list byte :=
  [byte_of n; byte_of (n / 256); byte_of (n / 65536);
   byte_of (n / 16777216)].

(** ** The data model (section 3) *)

(** Modelled from the spec: [FormatHeader] of section 3, [version: u8],
    [declared_record_size: Option<u16>] and the category's extra fields. *)
Record FormatHeader (X : Type) : Type := {
  header_version : byte;
  declared_record_size : option N;
  extra_fields : X
}.
Arguments header_version {X} _.
Arguments declared_record_size {X} _.
Arguments extra_fields {X} _.

(** Modelled from the spec: [MetricSet<T>] of section 3, the records in
    file order, the version and the header's extra fields. *)
Record MetricSet (T X : Type) : Type := {
  records : list T;
  version : byte;
  header_extra : X
}.
Arguments records {T X} _.
Arguments version {T X} _.
Arguments header_extra {T X} _.

(** Modelled from the spec: [ReadSubEntry {read: u32, value: f32}] of
    section 3.  [sub_entry_value] is the 32 bits of the float as they stand
    in the file. *)
Record ReadSubEntry : Type := {
  sub_entry_read : N;
  sub_entry_value : N
}.

(** Modelled from the spec: [TileRecord] of section 3, the scalar
    tile-level fields and the embedded sequence of sub-entries. *)
Record TileRecord (S : Type) : Type := {
  scalars : S;
  sub_entries : list ReadSubEntry
}.
Arguments scalars {S} _.
Arguments sub_entries {S} _.

(** ** The codecs of a category (sections 4.1 and 4.2) *)

(** Modelled from the spec: what the format header of a category depends
    on (section 4.1): the supported versions and the category's extra
    header fields, parsed right after the fixed part of the header. *)
Record header_codec : Type := {
  extra : Type;
  supported : byte -> bool;
  parse_extra : byte -> list byte -> result (extra * list byte);
  write_extra : byte -> extra -> list byte
}.

(** Modelled from the spec: the record codec of a fixed-size category
    (section 4.2), [{expected_record_size(version), decode, encode}]. *)
Record fixed_codec : Type := {
  fixed_header : header_codec;
  record : Type;
  expected_record_size : byte -> N;
  decode : byte -> extra fixed_header -> list byte -> record;
  encode : byte -> extra fixed_header -> record -> list byte
}.

(** Modelled from the spec: the record codec of the variable-size tile
    category (section 4.2): a fixed prefix of [base_size] bytes that holds
    the scalar fields and the count of sub-entries, then that many
    sub-entries; [count_consistent] is the check of section 4.3, step 5. *)
Record tile_codec : Type := {
  tile_header : header_codec;
  tile_scalars : Type;
  base_size : positive;
  decode_prefix : byte -> list byte -> tile_scalars * N;
  encode_prefix : byte -> tile_scalars -> N -> list byte;
  count_consistent : byte -> N -> bool
}.

(** Modelled from the spec: the metric categories by record layout
    (section 4.2): fixed-size, with a declared record size in the header,
    or the variable-size tile category, without one (section 6). *)
Inductive category_codec : Type :=
| fixed_size (c : fixed_codec)
| variable_size (c : tile_codec).

(** ** Format header (section 4.1) *)

(** Modelled from the spec: [Parse(bytes)] of section 4.1.  [expected] is
    the codec's expected record size when the category declares a
    record-size field.  The result is the header and the bytes after it. *)
Definition parse_header (h : header_codec) (expected : option (byte -> N))
    (bytes : list byte) : result (FormatHeader (extra h) * list byte) :=
  match bytes with
  | [] => Err IncompleteFile
  | v :: after_version =>
      if negb (supported h v) then Err (BadFormat UnsupportedVersion)
      else
        let parse_rest declared after_size :=
          match parse_extra h v after_size with
          | Err e => Err e
          | Ok (x, body) =>
              Ok ({| header_version := v;
                     declared_record_size := declared;
                     extra_fields := x |}, body)
          end in
        match expected with
        | None => parse_rest None after_version
        | Some expected_size =>
            match after_version with
            | b0 :: b1 :: after_size =>
                let declared := decode_u16 b0 b1 in
                if negb (declared =? expected_size v)%N
                then Err (BadFormat RecordSizeMismatch)
                else parse_rest (Some declared) after_size
            | _ => Err IncompleteFile
            end
        end
  end.

(** Modelled from the spec: the header as the stream writer emits it
    (section 4.4): version, declared record size if applicable, extra
    fields. *)
Definition write_header (h : header_codec) (expected : option (byte -> N))
    (v : byte) (x : extra h) : list byte :=
  v :: match expected with
       | None => []
       | Some expected_size => encode_u16 (expected_size v)
       end ++ write_extra h v x.

(** ** Records *)

(** The first [count] pieces of [size] bytes of [bytes]. *)
Fixpoint take_records (count size : nat) (bytes : list byte)
  : list (list byte) :=
  match count with
  | O => []
  | S count' =>
      firstn size bytes :: take_records count' size (skipn size bytes)
  end.

(** Modelled from the spec: the sub-entry of section 3 on disk, [read] as
    a little-endian [u32] and the four bytes of [value]. *)
Definition sub_entry_size : nat := 8.

Definition decode_sub_entry (bytes : list byte) : ReadSubEntry :=
  match bytes with
  | [r0; r1; r2; r3; v0; v1; v2; v3] =>
      {| sub_entry_read := decode_u32 r0 r1 r2 r3;
         sub_entry_value := decode_u32 v0 v1 v2 v3 |}
  | _ => {| sub_entry_read := 0; sub_entry_value := 0 |}
  end.

Definition encode_sub_entry (e : ReadSubEntry) : list byte :=
  encode_u32 (sub_entry_read e) ++ encode_u32 (sub_entry_value e).

(** Modelled from the spec: one decode step of the variable-size reader
    (section 4.3, steps 4 and 5): the fixed prefix, the consistency of its
    count, then as many sub-entries as it counts.  The result is the record
    and the bytes after it. *)
Definition decode_tile (c : tile_codec) (v : byte) (bytes : list byte)
  : result (TileRecord (tile_scalars c) * list byte) :=
  let base := Pos.to_nat (base_size c) in
  if (length bytes <? base)%nat then Err IncompleteFile
  else
    let '(s, n) := decode_prefix c v (firstn base bytes) in
    let after_prefix := skipn base bytes in
    if negb (count_consistent c v n) then Err (BadFormat Corrupt)
    else
      let need := (N.to_nat n * sub_entry_size)%nat in
      if (length after_prefix <? need)%nat then Err IncompleteFile
      else
        Ok ({| scalars := s;
               sub_entries :=
                 map decode_sub_entry
                     (take_records (N.to_nat n) sub_entry_size after_prefix) |},
            skipn need after_prefix).

(** Modelled from the spec: [encode] of a tile record: the prefix with the
    number of its sub-entries, then the sub-entries in order. *)
Definition encode_tile (c : tile_codec) (v : byte)
    (r : TileRecord (tile_scalars c)) : list byte :=
  encode_prefix c v (scalars r) (N.of_nat (length (sub_entries r)))
  ++ concat (map encode_sub_entry (sub_entries r)).

(** A decode step leaves fewer bytes than it was given. *)
Lemma decode_tile_shorter (c : tile_codec) (v : byte) (bytes : list byte) r rest :
  decode_tile c v bytes = Ok (r, rest) -> (length rest < length bytes)%nat.
Proof.
  unfold decode_tile.
  destruct (Nat.ltb_spec (length bytes) (Pos.to_nat (base_size c))); [done|].
  destruct (decode_prefix c v _) as [s n].
  destruct (count_consistent c v n); simpl; [|done].
  destruct (_ <? _)%nat; [done|].
  intros [= _ <-]. rewrite !length_skipn. lia.
Qed.

(** A value together with the equation that it is the value of [a]. *)
Definition inspect {A : Type} (a : A) : {b : A | a = b} := exist _ a eq_refl.

(** Modelled from the spec: the loop of the variable-size reader (section
    4.3, step 4): decode record after record, and stop when no byte
    remains after a record. *)
Equations? read_tiles (c : tile_codec) (v : byte) (bytes : list byte)
  : result (list (TileRecord (tile_scalars c))) by wf (length bytes) lt :=
  read_tiles c v [] := Ok [];
  read_tiles c v (b :: bs) with inspect (decode_tile c v (b :: bs)) := {
    | exist _ (Err e) _ := Err e
    | exist _ (Ok (r, rest)) Hstep with read_tiles c v rest := {
        | Err e := Err e
        | Ok rs := Ok (r :: rs)
      }
  }.
Proof. by apply decode_tile_shorter in Hstep. Qed.

(** ** Stream reader and stream writer (sections 4.3 and 4.4) *)

(** Modelled from the spec: [read] for a fixed-size category (section 4.3,
    steps 1 to 3 and 6).  The byte source is [None] when it cannot be
    opened. *)
Definition read_fixed (c : fixed_codec) (source : option (list byte))
  : result (MetricSet (record c) (extra (fixed_header c))) :=
  match source with
  | None => Err FileNotFound
  | Some bytes =>
      match parse_header (fixed_header c) (Some (expected_record_size c))
                         bytes with
      | Err e => Err e
      | Ok (h, body) =>
          let v := header_version h in
          let x := extra_fields h in
          let S := expected_record_size c v in
          let L := N.of_nat (length body) in
          if (L =? 0)%N
          then Ok {| records := []; version := v; header_extra := x |}
          else if negb (L mod S =? 0)%N then Err IncompleteFile
          else
            Ok {| records :=
                    map (decode c v x)
                        (take_records (N.to_nat (L / S)) (N.to_nat S) body);
                  version := v;
                  header_extra := x |}
      end
  end.

(** Modelled from the spec: [write] for a fixed-size category (section
    4.4): the header, then every record in container order. *)
Definition write_fixed (c : fixed_codec)
    (m : MetricSet (record c) (extra (fixed_header c))) : list byte :=
  write_header (fixed_header c) (Some (expected_record_size c))
               (version m) (header_extra m)
  ++ concat (map (encode c (version m) (header_extra m)) (records m)).

(** Modelled from the spec: [read] for the variable-size tile category
    (section 4.3, steps 1 and 4 to 6). *)
Definition read_variable (c : tile_codec) (source : option (list byte))
  : result (MetricSet (TileRecord (tile_scalars c)) (extra (tile_header c))) :=
  match source with
  | None => Err FileNotFound
  | Some bytes =>
      match parse_header (tile_header c) None bytes with
      | Err e => Err e
      | Ok (h, body) =>
          match read_tiles c (header_version h) body with
          | Err e => Err e
          | Ok rs =>
              Ok {| records := rs;
                    version := header_version h;
                    header_extra := extra_fields h |}
          end
      end
  end.

(** Modelled from the spec: [write] for the tile category (section 4.4). *)
Definition write_variable (c : tile_codec)
    (m : MetricSet (TileRecord (tile_scalars c)) (extra (tile_header c)))
  : list byte :=
  write_header (tile_header c) None (version m) (header_extra m)
  ++ concat (map (encode_tile c (version m)) (records m)).

(** The metric set of a category. *)
Definition metric_set_of (c : category_codec) : Type :=
  match c with
  | fixed_size c => MetricSet (record c) (extra (fixed_header c))
  | variable_size c =>
      MetricSet (TileRecord (tile_scalars c)) (extra (tile_header c))
  end.

(** Modelled from the spec: [read(byte_source)] of section 4.3. *)
Definition read (c : category_codec) (source : option (list byte))
  : result (metric_set_of c) :=
  match c with
  | fixed_size c => read_fixed c source
  | variable_size c => read_variable c source
  end.

(** Modelled from the spec: [write(MetricSet<T>)] of section 4.4. *)
Definition write (c : category_codec) : metric_set_of c -> list byte :=
  match c with
  | fixed_size c => write_fixed c
  | variable_size c => write_variable c
  end.

(** The supported versions of a category. *)
Definition supported_version (c : category_codec) (v : byte) : bool :=
  match c with
  | fixed_size c => supported (fixed_header c) v
  | variable_size c => supported (tile_header c) v
  end.

(** The header of a set as the writer emits it, and the encodings of its
    records in container order. *)
Definition header_bytes (c : category_codec) : metric_set_of c -> list byte :=
  match c with
  | fixed_size c => fun m =>
      write_header (fixed_header c) (Some (expected_record_size c))
                   (version m) (header_extra m)
  | variable_size c => fun m =>
      write_header (tile_header c) None (version m) (header_extra m)
  end.

Definition record_bytes (c : category_codec)
  : metric_set_of c -> list (list byte) :=
  match c with
  | fixed_size c => fun m =>
      map (encode c (version m) (header_extra m)) (records m)
  | variable_size c => fun m => map (encode_tile c (version m)) (records m)
  end.

(** ** What the codecs of a category owe the reader and the writer *)

(** Modelled from the spec: the extra header fields are written as they
    were parsed, whatever follows them, and a cut inside them is a
    truncation (section 4.1). *)
Record header_laws (h : header_codec) : Prop := {
  parse_write_extra : forall v x rest,
    parse_extra h v (write_extra h v x ++ rest) = Ok (x, rest);
  write_parse_extra : forall v bytes x rest,
    parse_extra h v bytes = Ok (x, rest) -> bytes = write_extra h v x ++ rest;
  parse_extra_truncated : forall v x (n : nat),
    (n < length (write_extra h v x))%nat ->
    parse_extra h v (firstn n (write_extra h v x)) = Err IncompleteFile
}.

(** Modelled from the spec: a record of the expected size is encoded to
    the bytes it was decoded from (sections 4.2 and 4.4). *)
Record fixed_laws (c : fixed_codec) : Prop := {
  fixed_header_laws : header_laws (fixed_header c);
  encode_decode : forall v x chunk,
    length chunk = N.to_nat (expected_record_size c v) ->
    encode c v x (decode c v x chunk) = chunk
}.

(** Modelled from the spec: the fixed prefix of a tile record is encoded
    to the bytes it was decoded from (sections 4.2 and 4.4). *)
Record tile_laws (c : tile_codec) : Prop := {
  tile_header_laws : header_laws (tile_header c);
  encode_decode_prefix : forall v prefix,
    length prefix = Pos.to_nat (base_size c) ->
    encode_prefix c v (fst (decode_prefix c v prefix))
                      (snd (decode_prefix c v prefix)) = prefix
}.

Definition lawful (c : category_codec) : Prop :=
  match c with
  | fixed_size c => fixed_laws c
  | variable_size c => tile_laws c
  end.

(** ** Sample categories *)

(** A header whose extra field is one byte, a channel count. *)
Definition channel_header (versions : list byte) : header_codec := {|
  extra := byte;
  supported := fun v => existsb (Byte.eqb v) versions;
  parse_extra := fun _ bytes =>
    match bytes with
    | [] => Err IncompleteFile
    | channels :: rest => Ok (channels, rest)
    end;
  write_extra := fun _ channels => [channels]
|}.

(** A header with no extra field. *)
Definition plain_header (versions : list byte) : header_codec := {|
  extra := unit;
  supported := fun v => existsb (Byte.eqb v) versions;
  parse_extra := fun _ bytes => Ok (tt, bytes);
  write_extra := fun _ _ => []
|}.

(** A per-cycle category of version 3 with records of six bytes: lane,
    tile and cycle, each a little-endian [u16]. *)
Definition sample_cycle_codec : fixed_codec := {|
  fixed_header := channel_header [Byte.x03];
  record := N * N * N;
  expected_record_size := fun _ => 6%N;
  decode := fun _ _ chunk =>
    match chunk with
    | [l0; l1; t0; t1; c0; c1] =>
        (decode_u16 l0 l1, decode_u16 t0 t1, decode_u16 c0 c1)
    | _ => (0, 0, 0)%N
    end;
  encode := fun _ _ '(lane, tile, cycle) =>
    encode_u16 lane ++ encode_u16 tile ++ encode_u16 cycle
|}.

(** A tile category of version 2 whose prefix is lane, tile and the count
    of sub-entries, each a little-endian [u16]; more than eight reads are
    taken for a corrupt count. *)
Definition sample_tile_codec : tile_codec := {|
  tile_header := plain_header [Byte.x02];
  tile_scalars := N * N;
  base_size := 6%positive;
  decode_prefix := fun _ prefix =>
    match prefix with
    | [l0; l1; t0; t1; n0; n1] =>
        ((decode_u16 l0 l1, decode_u16 t0 t1), decode_u16 n0 n1)
    | _ => ((0, 0), 0)%N
    end;
  encode_prefix := fun _ '(lane, tile) n =>
    encode_u16 lane ++ encode_u16 tile ++ encode_u16 n;
  count_consistent := fun _ n => (n <=? 8)%N
|}.

(** Version 3, record size 6, two channels; records (1, 1101, 1) and
    (1, 1101, 2). *)
Definition sample_cycle_file : list byte :=
  [Byte.x03; Byte.x06; Byte.x00; Byte.x02;
   Byte.x01; Byte.x00; Byte.x4d; Byte.x04; Byte.x01; Byte.x00;
   Byte.x01; Byte.x00; Byte.x4d; Byte.x04; Byte.x02; Byte.x00].

(** Version 2; tile (1, 1101) with reads 1 and 2, tile (1, 1102) with
    none. *)
Definition sample_tile_file : list byte :=
  [Byte.x02;
   Byte.x01; Byte.x00; Byte.x4d; Byte.x04; Byte.x02; Byte.x00;
   Byte.x01; Byte.x00; Byte.x00; Byte.x00;
   Byte.x00; Byte.x00; Byte.x80; Byte.x3f;
   Byte.x02; Byte.x00; Byte.x00; Byte.x00;
   Byte.x00; Byte.x00; Byte.x00; Byte.x40;
   Byte.x01; Byte.x00; Byte.x4e; Byte.x04; Byte.x00; Byte.x00].

End Codec.

(** * The rest of the cycle simulator

    [main] of [cyclesim.cpp], and the vocabulary of further properties of
    the copy functions. *)

Module Driver.
Import CycleSim.

Section Main.
Context {MT : metric_types} {W : world MT}.

(** [main], lines 104-155, from its arguments to its exit status.
    [max_cycle] and [max_read] are [util::lexical_cast<unsigned int>] of
    [argv[3]] and [argv[4]].  The two [mkdir] commands and the copies of
    [RunInfo.xml] and [RunParameters.xml] (lines 128-145) touch no InterOp
    file and their outcome is only printed; they are left out. *)
Definition main (argc : Z) (max_cycle max_read : N) : M Z :=
  if argc <=? 1 then ret 1 else
  if argc <? 5 then ret 1 else
  let cycle_to_align := 25%N in
  res ← write_interops max_cycle max_read cycle_to_align;
  if negb (res =? exit_code SUCCESS) then ret res
  else ret (exit_code SUCCESS).

(** The file of a call is missing: its read threw
    [file_not_found_exception]. *)
Definition missing (k : copy_call) : Prop :=
  read_thrown k = Some file_not_found_exception.

(** The file of a call can be copied: its read threw nothing or
    [incomplete_file_exception], and left at least one record. *)
Definition copyable (k : copy_call) : Prop :=
  read_size k <> 0%nat
  /\ (read_thrown k = None
      \/ read_thrown k = Some incomplete_file_exception).

(** What an exit code that ends a run says of the call [k] that failed,
    given the exceptions the writes of the run threw. *)
Definition diagnosis (k : copy_call) (thrown_by_writes : list exception)
    (code : exit_codes) : Prop :=
  match code with
  | BAD_FORMAT =>
      read_thrown k = Some bad_format_exception
      \/ bad_format_exception ∈ thrown_by_writes
  | UNEXPECTED_EXCEPTION => read_thrown k = Some std_exception
  | EMPTY_INTEROP =>
      read_size k = 0%nat
      /\ (read_thrown k = None
          \/ read_thrown k = Some incomplete_file_exception)
  | _ => False
  end.

End Main.

(** The categories of all the writes of a trace, whether they threw or
    not, in order. *)
Definition write_attempts {MT : metric_types} (t : trace) : list category :=
  omap (fun ev =>
          match ev with
          | write_tile_call _ _ => Some tile_metrics
          | write_cycle_call c _ _ => Some (cycle_metrics c)
          | read_call _ => None
          end) t.

(** The exceptions the writes of a trace threw, in order. *)
Definition write_throws {MT : metric_types} (t : trace) : list exception :=
  omap (fun ev =>
          match ev with
          | write_tile_call _ thrown => thrown
          | write_cycle_call _ _ thrown => thrown
          | read_call _ => None
          end) t.


(** The output folder never fails a write. *)
Definition writes_succeed {MT : metric_types} (W : world MT) : Prop :=
  (forall t m, @write_interop_tile MT W t m = None)
  /\ (forall c t m, @write_interop_cycle MT W c t m = None).

(** ** More sample run folders *)

Section Samples.
#[local] Existing Instance sample_types.

(** A run folder whose only InterOp file is a tile file that cannot be
    read at all: the library throws something that is no
    [std::exception]. *)
Definition foreign_tile_folder : world sample_types := {|
  read_interop_tile := (no_tiles, Some foreign_exception);
  read_interop_cycle := fun c => (no_cycles c, Some file_not_found_exception);
  write_interop_tile := fun _ _ => None;
  write_interop_cycle := fun _ _ _ => None
|}.


(** A run folder whose only InterOp file holds extraction metrics of the
    cycles 1, 26 and 2. *)
Definition extraction_only_folder : world sample_types := {|
  read_interop_tile := (no_tiles, Some file_not_found_exception);
  read_interop_cycle := fun c =>
    match c with
    | extraction_metrics => (three_cycles c, None)
    | _ => (no_cycles c, Some file_not_found_exception)
    end;
  write_interop_tile := fun _ _ => None;
  write_interop_cycle := fun _ _ _ => None
|}.

End Samples.

End Driver.

(** * The lazy parameter generator of the unit tests

    [proxy_argument_generator] and [proxy_argument_iterator] of
    [tests/interop/inc/proxy_parameter_generator.h].  The generator keeps a
    reference to a vector of proxies and to a functor, and fills a vector
    of parameters from them at the first [Begin]. *)

Module ProxyGenerator.

Section Generator.
Context {T Proxy parent_type : Type}.

(** [T::operator()]: the call of the functor on a proxy gives a parameter,
    and may change the functor, which is held by a reference that is not
    [const]. *)
Variable call : T -> Proxy -> T * parent_type.

(** The value-initialized [parent_type], which [resize] puts in the new
    places of [m_proxy_data]. *)
Variable value_initialized : parent_type.

(** The members of [proxy_argument_generator], lines 45-47.  [m_vec] and
    [m_object] are references: the fields hold the vector and the functor
    they refer to, as they are when the generator is used.  [this] is the
    address of the generator, which its iterators keep as [m_base]. *)
Record proxy_argument_generator := {
  this : N;
  m_vec : list Proxy;
  m_proxy_data : list parent_type;
  m_object : T
}.

(** The members of [proxy_argument_iterator], lines 129-133.  [m_begin]
    and [m_current] are positions in [m_proxy_data] of the generator at
    [m_base], counted from its start.  [m_current_val] is [None] until
    [Current] assigns it: no constructor initializes it.  The reference
    [m_object] of the iterator is never used and is left out. *)
Record proxy_argument_iterator := {
  m_base : N;
  m_begin : nat;
  m_current : nat;
  m_current_val : option parent_type
}.

(** The constructor of the iterator, lines 64-68. *)
Definition iterator_at (base : proxy_argument_generator) (it : nat)
    : proxy_argument_iterator :=
  {| m_base := this base;
     m_begin := it;
     m_current := it;
     m_current_val := None |}.

(** The constructor of the generator, line 30: [m_proxy_data] starts
    empty. *)
Definition generator (address : N) (obj : T) (vec : list Proxy)
    : proxy_argument_generator :=
  {| this := address; m_vec := vec; m_proxy_data := []; m_object := obj |}.

(** The body of the loop of [Begin], line 143:
    [m_proxy_data[i] = m_object(m_vec[i])].  The loop keeps [i] below
    [m_vec.size()]; past it the access is undefined, and the model leaves
    the generator as it is. *)
Definition assign (g : proxy_argument_generator) (i : nat)
    : proxy_argument_generator :=
  match m_vec g !! i with
  | Some p =>
      let '(obj, v) := call (m_object g) p in
      {| this := this g;
         m_vec := m_vec g;
         m_proxy_data := <[i := v]> (m_proxy_data g);
         m_object := obj |}
  | None => g
  end.

(** Lines 142-143: the [resize], and the loop over
    [i = 0 .. m_vec.size() - 1]. *)
Definition fill (g : proxy_argument_generator) : proxy_argument_generator :=
  let size := length (m_vec g) in
  fold_left assign (seq 0 size)
    {| this := this g;
       m_vec := m_vec g;
       m_proxy_data := resize size value_initialized (m_proxy_data g);
       m_object := m_object g |}.

(** [Begin], lines 137-146: the generator after the call, and the new
    iterator. *)
Definition Begin (g : proxy_argument_generator)
    : proxy_argument_generator * proxy_argument_iterator :=
  let g' := if bool_decide (m_proxy_data g = []) then fill g else g in
  (g', iterator_at g' 0).

(** [End], lines 147-151; the name [End] is reserved.  The generator is
    not changed. *)
Definition End_ (g : proxy_argument_generator) : proxy_argument_iterator :=
  iterator_at g (length (m_proxy_data g)).

(** [ProxyValuesIn], lines 160-164: a new generator at [address]. *)
Definition ProxyValuesIn (address : N) (object : T) (values : list Proxy)
    : proxy_argument_generator :=
  generator address object values.

(** [BaseGenerator], lines 76-79. *)
Definition BaseGenerator (it : proxy_argument_iterator) : N := m_base it.

(** [Advance], lines 87-90. *)
Definition Advance (it : proxy_argument_iterator) : proxy_argument_iterator :=
  {| m_base := m_base it;
     m_begin := m_begin it;
     m_current := S (m_current it);
     m_current_val := m_current_val it |}.

(** [Clone], lines 96-99, by the private copy constructor, lines
    125-127, which does not copy [m_current_val]. *)
Definition Clone (it : proxy_argument_iterator) : proxy_argument_iterator :=
  {| m_base := m_base it;
     m_begin := m_begin it;
     m_current := m_current it;
     m_current_val := None |}.

(** [Current], lines 107-111, on the generator [base] the iterator
    belongs to: the iterator with the value copied to [m_current_val], and
    the value the returned pointer gives.  At the end of [m_proxy_data]
    and past it the access is undefined: [None]. *)
Definition Current (base : proxy_argument_generator)
    (it : proxy_argument_iterator)
    : option (proxy_argument_iterator * parent_type) :=
  match m_proxy_data base !! m_current it with
  | Some v =>
      Some ({| m_base := m_base it;
               m_begin := m_begin it;
               m_current := m_current it;
               m_current_val := Some v |}, v)
  | None => None
  end.

(** [Equals], lines 119-123.  Iterators of one generator are all
    [proxy_argument_iterator]s, so the [dynamic_cast] succeeds when the
    first test does. *)
Definition Equals (it other : proxy_argument_iterator) : bool :=
  (m_base it =? BaseGenerator other)%N
  && (m_current it =? m_current other)%nat.

(** The generator when the vector that [m_vec] refers to has become
    [vec]. *)
Definition with_vec (vec : list Proxy) (g : proxy_argument_generator)
    : proxy_argument_generator :=
  {| this := this g;
     m_vec := vec;
     m_proxy_data := m_proxy_data g;
     m_object := m_object g |}.

(** The functor called on the values in order: the functor it leaves, and
    the parameters it gave. *)
Fixpoint called_in_order (obj : T) (values : list Proxy)
    : T * list parent_type :=
  match values with
  | [] => (obj, [])
  | p :: rest =>
      let '(obj1, v) := call obj p in
      let '(obj2, vs) := called_in_order obj1 rest in
      (obj2, v :: vs)
  end.

End Generator.

Arguments proxy_argument_generator : clear implicits.
Arguments proxy_argument_iterator : clear implicits.

(** A functor that counts its calls, and gives ten times the proxy plus
    the number of calls before. *)
Definition counting (calls : nat) (p : nat) : nat * nat :=
  (S calls, (10 * p + calls)%nat).

(** A generator of three parameters, not yet asked for them. *)
Definition three_parameters : proxy_argument_generator nat nat nat :=
  ProxyValuesIn 4096 0%nat [1; 2; 3]%nat.

End ProxyGenerator.

(** * Properties of the cycle simulator *)

Module CycleSimFacts.
Import CycleSim.

(** ** The filters *)

Section Filters.
Context {MT : metric_types}.

(** A loop that appends the elements passing a test computes [filter]. *)
Lemma push_back_loop {A} (P : A -> Prop) `{!forall x, Decision (P x)}
    (skip : A -> bool) (l acc : list A) :
  (forall x, skip x = true <-> ~ P x) ->
  fold_left (fun acc x => if skip x then acc else acc ++ [x]) l acc
  = acc ++ filter P l.
Proof.
  intros Hskip. revert acc.
  induction l as [|x l IH]; intros acc; simpl.
  - by rewrite app_nil_r.
  - rewrite IH, filter_cons.
    destruct (decide (P x)) as [HP|HP].
    + destruct (skip x) eqn:Hx; [by apply Hskip in Hx|].
      by rewrite <- app_assoc.
    + apply Hskip in HP. by rewrite HP.
Qed.

Lemma cycle_subset_filter c (max_cycle : N) (ms : list (cycle_metric c)) :
  cycle_subset max_cycle ms = filter (fun r => (cycle r <= max_cycle)%N) ms.
Proof.
  unfold cycle_subset.
  rewrite (push_back_loop (fun r => (cycle r <= max_cycle)%N)); [done|].
  intros r. rewrite N.ltb_lt. lia.
Qed.

Lemma reads_subset_filter (max_read : N) (rs : list (read_metric read_base)) :
  reads_subset max_read rs = filter (fun e => (read e <= max_read)%N) rs.
Proof.
  unfold reads_subset.
  rewrite (push_back_loop (fun e => (read e <= max_read)%N)); [done|].
  intros e. rewrite N.ltb_lt. lia.
Qed.

(** A loop that appends an image of every element computes [map]. *)
Lemma push_back_all {A B} (f : A -> B) (l : list A) (acc : list B) :
  fold_left (fun acc x => acc ++ [f x]) l acc = acc ++ map f l.
Proof.
  revert acc. induction l as [|x l IH]; intros acc; simpl.
  - by rewrite app_nil_r.
  - by rewrite IH, <- app_assoc.
Qed.

Lemma tile_subset_map (max_read : N) (ts : list tile_metric_t) :
  tile_subset max_read ts = map (keep_reads max_read) ts.
Proof.
  unfold tile_subset. rewrite push_back_all. simpl.
  apply map_ext. intros t. unfold keep_reads.
  by rewrite reads_subset_filter.
Qed.

End Filters.

(** ** One call of a copy function *)

Section Calls.
Context {MT : metric_types} {W : world MT}.

(** [copy_cycle_metrics] case by case: the read, then either the return
    code of [read_metrics_from_file] or the write of the filtered set. *)
Lemma copy_cycle_metrics_run c (max_cycle : N) (t : trace) :
  copy_cycle_metrics c max_cycle t =
    let t1 := t ++ [read_call (cycle_metrics c)] in
    let m := fst (read_interop_cycle c) in
    let copied :=
      if (size m =? 0)%nat then (t1, Returns (exit_code EMPTY_INTEROP))
      else
        let out := filter_by_cycle max_cycle m in
        let thrown := write_interop_cycle c t1 out in
        (t1 ++ [write_cycle_call c out thrown], after_write thrown) in
    match snd (read_interop_cycle c) with
    | Some file_not_found_exception => (t1, Returns 1)
    | Some bad_format_exception => (t1, Returns (exit_code BAD_FORMAT))
    | Some incomplete_file_exception => copied
    | Some std_exception => (t1, Returns (exit_code UNEXPECTED_EXCEPTION))
    | Some foreign_exception => (t1, Throws foreign_exception)
    | None => copied
    end.
Proof.
  unfold copy_cycle_metrics, read_metrics_from_file, read_cycle, write_cycle,
    try_write, after_write, mbind, M_bind, bind, ret, throw.
  destruct (read_interop_cycle c) as [m [[]|]]; simpl; try done;
    destruct (size m =? 0)%nat; simpl; try done;
    by destruct (write_interop_cycle c _ _) as [[]|].
Qed.

(** [copy_tile_metrics] case by case: the read, then either the return code
    of [read_metrics_from_file], or the write of the set as read followed,
    when that write did not throw, by the write of the filtered set. *)
Lemma copy_tile_metrics_run (max_read : N) (t : trace) :
  copy_tile_metrics max_read t =
    let t1 := t ++ [read_call tile_metrics] in
    let m := fst read_interop_tile in
    let copied :=
      if (size m =? 0)%nat then (t1, Returns (exit_code EMPTY_INTEROP))
      else
        let first := write_interop_tile t1 m in
        let t2 := t1 ++ [write_tile_call m first] in
        match first with
        | None =>
            let out := filter_by_read max_read m in
            let second := write_interop_tile t2 out in
            (t2 ++ [write_tile_call out second], after_write second)
        | Some _ => (t2, after_write first)
        end in
    match snd read_interop_tile with
    | Some file_not_found_exception => (t1, Returns 1)
    | Some bad_format_exception => (t1, Returns (exit_code BAD_FORMAT))
    | Some incomplete_file_exception => copied
    | Some std_exception => (t1, Returns (exit_code UNEXPECTED_EXCEPTION))
    | Some foreign_exception => (t1, Throws foreign_exception)
    | None => copied
    end.
Proof.
  unfold copy_tile_metrics, read_metrics_from_file, read_tile, write_tile,
    try_write, after_write, mbind, M_bind, bind, ret, throw.
  destruct read_interop_tile as [m [[]|]]; simpl; try done;
    destruct (size m =? 0)%nat; simpl; try done;
    (destruct (write_interop_tile _ m) as [[]|]; simpl; try done);
    by destruct (write_interop_tile _ (filter_by_read _ _)) as [[]|].
Qed.

End Calls.

(** ** The sequence of calls *)

(** Membership in a list given by its elements. *)
Ltac in_list :=
  repeat first [apply list_elem_of_here | apply list_elem_of_further].

(** Closes a case of [copy_summary]: the writes of the call are read off
    the trace. *)
Ltac summary :=
  eexists _, _;
  split; [rewrite <- ?app_assoc; reflexivity|];
  repeat split; intros; simplify_eq/=; try lia; try done.

(** Closes a case of [copy_outcome]. *)
Ltac outcome :=
  eexists _, _;
  split; [rewrite <- ?app_assoc; reflexivity|];
  repeat split; intros; simplify_eq/=;
  repeat match goal with
         | H : _ /\ _ |- _ => destruct H
         | H : ex _ |- _ => destruct H
         end;
  simplify_eq/=;
  try done; try lia; try (repeat constructor; done); try (by auto);
  try (by eexists; split; [reflexivity|lia]).

Section Orchestration.
Context {MT : metric_types} {W : world MT}.
Variables max_cycle max_read : N.

#[local] Abbreviation copy := (copy max_cycle max_read).
#[local] Abbreviation run_plan := (run_plan max_cycle max_read).

Lemma reads_of_app (t1 t2 : trace) :
  reads_of (t1 ++ t2) = reads_of t1 ++ reads_of t2.
Proof. apply omap_app. Qed.


(** [write_interops] is the loop over [plan]. *)
Lemma write_interops_run_plan (align : N) (t : trace) :
  write_interops max_cycle max_read align t
  = run_plan (plan max_cycle align) 0 t.
Proof.
  unfold write_interops, plan.
  by destruct (align <? max_cycle)%N.
Qed.

Lemma run_plan_cons k ks (n : Z) (t : trace) :
  run_plan (k :: ks) n t =
    match copy k t with
    | (t', Returns res) =>
        if 1 <? res then (t', Returns (encode_error res (error_type k)))
        else run_plan ks (count_valid res n) t'
    | (t', Throws e) => (t', Throws e)
    end.
Proof.
  simpl. unfold mbind, M_bind, bind, ret.
  destruct (copy k t) as [t' [res|e]]; [|done].
  by destruct (1 <? res).
Qed.

(** One call: it reads its category once, then only writes; it returns 1
    exactly when the file is missing, and then writes nothing; it returns
    0 only after a write that did not throw. *)
Lemma copy_summary k (t : trace) :
  exists ws o,
    copy k t = (t ++ read_call (category_of k) :: ws, o)
    /\ reads_of ws = []
    /\ (o = Returns 1 <-> read_thrown k = Some file_not_found_exception)
    /\ (o = Returns 1 -> ws = [])
    /\ (o = Returns 0 -> written ws <> [])
    /\ (forall r, o = Returns r -> r = 0 \/ r = 1 \/ 3 <= r <= 5).
Proof.
  destruct k as [|c]; unfold read_thrown; simpl.
  - rewrite copy_tile_metrics_run; simpl.
    destruct read_interop_tile as [m [[]|]]; simpl; try (by summary).
    all: destruct (size m =? 0)%nat; [by summary|].
    all: destruct (write_interop_tile _ m) as [e1|]; simpl;
      [by destruct e1; summary|].
    all: destruct (write_interop_tile _ (filter_by_read _ _)) as [e2|]; simpl;
      [by destruct e2; summary|by summary].
  - rewrite copy_cycle_metrics_run; simpl.
    destruct (read_interop_cycle c) as [m [[]|]]; simpl; try (by summary).
    all: destruct (size m =? 0)%nat; [by summary|].
    all: destruct (write_interop_cycle c _ _) as [e|]; simpl;
      [by destruct e; summary|by summary].
Qed.

Lemma reads_of_read cat (t : trace) :
  reads_of (read_call cat :: t) = cat :: reads_of t.
Proof. reflexivity. Qed.


Lemma encode_error_fatal (res : Z) k :
  3 <= res <= 5 ->
  encode_error res (error_type k) <> 0
  /\ encode_error res (error_type k) <> exit_code NO_INTEROPS_FOUND.
Proof. unfold encode_error. destruct k; simpl; lia. Qed.








(** A call whose read left no record ends the run with [EMPTY_INTEROP]. *)
Lemma run_plan_empty k ks (n : Z) (t : trace) :
  read_size k = 0%nat ->
  read_thrown k = None \/ read_thrown k = Some incomplete_file_exception ->
  run_plan (k :: ks) n t
  = (t ++ [read_call (category_of k)],
     Returns (encode_error (exit_code EMPTY_INTEROP) (error_type k))).
Proof.
  intros Hsize Hthrown. rewrite run_plan_cons.
  destruct k as [|c]; unfold read_size, read_thrown in *; simpl.
  - rewrite copy_tile_metrics_run; simpl.
    destruct read_interop_tile as [m thrown]; simpl in *.
    rewrite Hsize. by destruct Hthrown as [->| ->].
  - rewrite copy_cycle_metrics_run; simpl.
    destruct (read_interop_cycle c) as [m thrown]; simpl in *.
    rewrite Hsize. by destruct Hthrown as [->| ->].
Qed.

(** A run that meets such a call ends neither with 0 nor with
    [NO_INTEROPS_FOUND]. *)
Lemma run_plan_fatal k ks :
  k ∈ ks ->
  read_size k = 0%nat ->
  read_thrown k = None \/ read_thrown k = Some incomplete_file_exception ->
  forall (n : Z) (t : trace),
    snd (run_plan ks n t) <> Returns 0
    /\ snd (run_plan ks n t) <> Returns (exit_code NO_INTEROPS_FOUND).
Proof.
  intros Hin Hsize Hthrown.
  induction ks as [|k' ks IH]; [by apply elem_of_nil in Hin|].
  intros n t. apply elem_of_cons in Hin as [<-|Hin].
  - rewrite run_plan_empty by done. simpl.
    pose proof (encode_error_fatal 5 k ltac:(lia)) as [? ?].
    split; intros ?; simplify_eq.
  - rewrite run_plan_cons.
    destruct (copy_summary k' t) as (ws & o1 & -> & _ & _ & _ & _ & Hrng).
    destruct o1 as [res|e]; [|done].
    destruct (Z.ltb_spec 1 res) as [Hres|Hres]; [|by apply IH].
    destruct (Hrng res eq_refl) as [?|[?|Hfatal]]; [lia..|].
    destruct (encode_error_fatal res k' Hfatal) as [? ?].
    split; intros ?; simplify_eq/=.
Qed.

End Orchestration.

(** ** The claims about the filters *)

Section FilterClaims.
Context {MT : metric_types} {W : world MT}.

Lemma filter_none {A} (P : A -> Prop) `{!forall x, Decision (P x)} (l : list A) :
  Forall (fun x => ~ P x) l -> filter P l = [].
Proof.
  induction 1 as [|x l Hx _ IH]; [done|].
  rewrite filter_cons. by destruct (decide (P x)).
Qed.

(** C4.  For a per-cycle metric set [m] and a bound [max_cycle], the set
    [copy_cycle_metrics] builds has exactly the records of [m] whose cycle
    is at most [max_cycle], in the order of [m] (it is [filter] of the
    records, a sublist of them, with the same members up to the test), and
    the version and the header of [m].  It is a total function of [m],
    which it only reads; and whenever [copy_cycle_metrics] writes, it writes
    this set built from the set it read. *)
Theorem filter_by_cycle_correct c (max_cycle : N) (m : cycle_metric_set c)
    (t : trace) :
  let out := filter_by_cycle max_cycle m in
  metrics out = filter (fun r => (cycle r <= max_cycle)%N) (metrics m)
  /\ metrics out `sublist_of` metrics m
  /\ (forall r, r ∈ metrics out <-> r ∈ metrics m /\ (cycle r <= max_cycle)%N)
  /\ version out = version m
  /\ header out = header m
  /\ (fst (copy_cycle_metrics c max_cycle t)
        = t ++ [read_call (cycle_metrics c)]
      \/ exists thrown,
          fst (copy_cycle_metrics c max_cycle t)
          = t ++ [read_call (cycle_metrics c);
                  write_cycle_call c
                    (filter_by_cycle max_cycle (fst (read_interop_cycle c)))
                    thrown]).
Proof.
  simpl. rewrite cycle_subset_filter.
  split; [done|].
  split; [apply sublist_filter|].
  split; [intros r; rewrite list_elem_of_filter; tauto|].
  do 2 (split; [done|]).
  rewrite copy_cycle_metrics_run; simpl.
  destruct (read_interop_cycle c) as [m' [[]|]]; simpl; auto;
    destruct (size m' =? 0)%nat; simpl; auto;
    right; eexists; by rewrite <- app_assoc.
Qed.

(** X2.  Filtering by cycle twice is filtering by the smaller bound. *)
Theorem filter_by_cycle_twice c (a b : N) (m : cycle_metric_set c) :
  filter_by_cycle a (filter_by_cycle b m) = filter_by_cycle (N.min a b) m.
Proof.
  unfold filter_by_cycle. cbn [metrics version header]. f_equal.
  rewrite !cycle_subset_filter, list_filter_filter.
  apply list_filter_iff. intros r. lia.
Qed.

(** C5.  For a tile metric set [m] and a bound [max_read], the set
    [copy_tile_metrics] builds has one record per tile of [m], in the same
    order and with the same tile-level fields; the read entries of each are
    exactly those of the tile whose read is at most [max_read], in order; a
    tile all of whose reads exceed [max_read] is kept with no read entry. *)
Theorem filter_by_read_correct (max_read : N) (m : tile_metric_set) :
  let out := filter_by_read max_read m in
  metrics out = map (keep_reads max_read) (metrics m)
  /\ length (metrics out) = length (metrics m)
  /\ map tile_fields (metrics out) = map tile_fields (metrics m)
  /\ map read_metrics (metrics out)
     = map (fun t => filter (fun e => (read e <= max_read)%N) (read_metrics t))
           (metrics m)
  /\ (forall (i : nat) t,
        metrics m !! i = Some t ->
        metrics out !! i = Some (keep_reads max_read t))
  /\ (forall (i : nat) t,
        metrics m !! i = Some t ->
        Forall (fun e => (max_read < read e)%N) (read_metrics t) ->
        metrics out !! i = Some (TileMetric (tile_fields t) []))
  /\ version out = version m
  /\ header out = header m.
Proof.
  intros out. subst out. unfold filter_by_read. cbn [metrics version header].
  rewrite tile_subset_map.
  split; [done|].
  split; [apply length_map|].
  split; [by rewrite map_map|].
  split; [by rewrite map_map|].
  change (map (keep_reads max_read) (metrics m))
    with (keep_reads max_read <$> metrics m).
  assert (Hkeep : forall (i : nat) t,
            metrics m !! i = Some t ->
            (keep_reads max_read <$> metrics m) !! i
            = Some (keep_reads max_read t)).
  { intros i t Hi.
    pose proof (list_lookup_fmap (keep_reads max_read) (metrics m) i) as E.
    by rewrite Hi in E. }
  split; [done|].
  split; [|done].
  intros i t Hi Hall. rewrite (Hkeep i t Hi).
  unfold keep_reads. rewrite filter_none; [done|].
  eapply List.Forall_impl; [|exact Hall]. simpl. lia.
Qed.

End FilterClaims.

(** ** The claims about the copy of a run folder *)

Section CopyClaims.
Context {MT : metric_types} {W : world MT}.
Variables max_cycle max_read : N.

#[local] Abbreviation run_plan := (run_plan max_cycle max_read).

(** X16.  [write_interops] is the loop [run_plan] over its calls, and at
    every call [k] of the loop, whatever the calls [ks] that follow:
    - a read that throws [file_not_found_exception] is skipped: the loop
      goes on with [ks] and the same [valid_count];
    - a read that throws [bad_format_exception] ends the run with the
      encoded [BAD_FORMAT] (another [std::exception] with the encoded
      [UNEXPECTED_EXCEPTION]);
    - [incomplete_file_exception] is caught and the set is handled as after
      a read that threw nothing: with no record the run ends with the
      encoded [EMPTY_INTEROP]; with a record, the filtered set is written
      (for the tile file the set as read first, the filtered set after it)
      and, when no write throws, the loop goes on with [valid_count + 1];
      a write that throws [bad_format_exception] ends the run with the
      encoded [BAD_FORMAT]. *)
Theorem copy_policy (align : N) k ks (n : Z) (t : trace) :
  write_interops max_cycle max_read align t
  = run_plan (plan max_cycle align) 0 t
  /\
  let t1 := t ++ [read_call (category_of k)] in
  let abort (res : exit_codes) :=
    (t1, Returns (encode_error (exit_code res) (error_type k))) in
  let copied : Prop :=
    if (read_size k =? 0)%nat
    then run_plan (k :: ks) n t = abort EMPTY_INTEROP
    else
      match k with
      | cycle_copy c =>
          let out := filter_by_cycle max_cycle (fst (read_interop_cycle c)) in
          let thrown := write_interop_cycle c t1 out in
          let t2 := t1 ++ [write_cycle_call c out thrown] in
          run_plan (k :: ks) n t =
            match thrown with
            | None => run_plan ks (n + 1) t2
            | Some bad_format_exception => (t2, snd (abort BAD_FORMAT))
            | Some e => (t2, Throws e)
            end
      | tile_copy =>
          let m := fst read_interop_tile in
          let first := write_interop_tile t1 m in
          let t2 := t1 ++ [write_tile_call m first] in
          let out := filter_by_read max_read m in
          let second := write_interop_tile t2 out in
          let t3 := t2 ++ [write_tile_call out second] in
          run_plan (k :: ks) n t =
            match first, second with
            | None, None => run_plan ks (n + 1) t3
            | None, Some bad_format_exception => (t3, snd (abort BAD_FORMAT))
            | None, Some e => (t3, Throws e)
            | Some bad_format_exception, _ => (t2, snd (abort BAD_FORMAT))
            | Some e, _ => (t2, Throws e)
            end
      end in
  match read_thrown k with
  | Some file_not_found_exception => run_plan (k :: ks) n t = run_plan ks n t1
  | Some bad_format_exception => run_plan (k :: ks) n t = abort BAD_FORMAT
  | Some incomplete_file_exception => copied
  | Some std_exception => run_plan (k :: ks) n t = abort UNEXPECTED_EXCEPTION
  | Some foreign_exception =>
      run_plan (k :: ks) n t = (t1, Throws foreign_exception)
  | None => copied
  end.
Proof.
  split; [apply write_interops_run_plan|].
  rewrite run_plan_cons.
  destruct k as [|c]; unfold read_thrown, read_size; simpl.
  - rewrite copy_tile_metrics_run; simpl.
    destruct read_interop_tile as [m [[]|]]; simpl; try done.
    all: destruct (size m =? 0)%nat; simpl; try done.
    all: destruct (write_interop_tile _ m) as [[]|]; simpl; try done.
    all: by destruct (write_interop_tile _ (filter_by_read _ _)) as [[]|].
  - rewrite copy_cycle_metrics_run; simpl.
    destruct (read_interop_cycle c) as [m [[]|]]; simpl; try done.
    all: destruct (size m =? 0)%nat; simpl; try done.
    all: by destruct (write_interop_cycle c _ _) as [[]|].
Qed.


(** C9.  At a call [k] of the loop whose read left no record, having thrown
    nothing or [incomplete_file_exception], the run ends after this read
    with the encoded [EMPTY_INTEROP]; so a run of [write_interops] that has
    such a call among its calls ends neither with 0 nor with
    [NO_INTEROPS_FOUND], and when the call is the tile copy the run ends
    with 501 after the tile read. *)
Theorem empty_metric_set_aborts (align : N) k ks (n : Z) (t : trace) :
  read_size k = 0%nat ->
  read_thrown k = None \/ read_thrown k = Some incomplete_file_exception ->
  run_plan (k :: ks) n t
  = (t ++ [read_call (category_of k)],
     Returns (encode_error (exit_code EMPTY_INTEROP) (error_type k)))
  /\ (k ∈ plan max_cycle align ->
      snd (write_interops max_cycle max_read align t) <> Returns 0
      /\ snd (write_interops max_cycle max_read align t)
         <> Returns (exit_code NO_INTEROPS_FOUND))
  /\ (k = tile_copy ->
      write_interops max_cycle max_read align t
      = (t ++ [read_call tile_metrics], Returns 501)).
Proof.
  intros Hsize Hthrown.
  split; [by apply run_plan_empty|].
  split.
  - intros Hin. rewrite write_interops_run_plan.
    by apply (run_plan_fatal max_cycle max_read k).
  - intros ->. rewrite write_interops_run_plan. unfold plan.
    by rewrite run_plan_empty.
Qed.

(** C10.  Whatever a write that throws leaves of the tile file, as long
    as a write that returns has written its set: a tile copy that returns
    0 has made, after the read, two writes of the tile file, the set as
    read and then the set filtered by read, and the file holds the set as
    read after the first and the filtered set at the end.  The copy is the
    one that builds the filtered set between its two writes.  Whenever the
    read leaves a record and the first write does not throw, the file
    holds the set as read from then until the second write: an exception
    thrown while the filtered set is built leaves the copy there, with the
    file as the first write made it; otherwise the copy goes on to the
    second write, and if that one throws, the copy does not return 0 and
    the file is what that write left of the set as read. *)
Theorem tile_copy_writes_twice
    (stored : option tile_metric_set -> tile_metric_set -> option exception
              -> option tile_metric_set)
    (t : trace) :
  writes_what_it_returns_from stored ->
  let m := fst read_interop_tile in
  let out := filter_by_read max_read m in
  let t2 := t ++ [read_call tile_metrics; write_tile_call m None] in
  (forall t', copy_tile_metrics max_read t = (t', Returns 0) ->
     t' = t2 ++ [write_tile_call out None]
     /\ destination_tile stored t2 = Some m
     /\ destination_tile stored t' = Some out)
  /\ copy_tile_metrics max_read t
     = copy_tile_metrics_building
         (fun metrics => ret (filter_by_read max_read metrics)) t
  /\ (snd read_interop_tile = None
      \/ snd read_interop_tile = Some incomplete_file_exception ->
      size m <> 0%nat ->
      write_interop_tile (t ++ [read_call tile_metrics]) m = None ->
      destination_tile stored t2 = Some m
      /\ (forall e,
            copy_tile_metrics_building (fun _ => throw e) t = (t2, Throws e))
      /\ (forall second, write_interop_tile t2 out = second ->
            copy_tile_metrics max_read t
            = (t2 ++ [write_tile_call out second], after_write second)
            /\ destination_tile stored (t2 ++ [write_tile_call out second])
               = stored (Some m) out second
            /\ (second <> None -> after_write second <> Returns 0))).
Proof.
  intros Hstored m out t2. subst m out t2.
  assert (Hdest : forall (m1 : tile_metric_set) evs,
            destination_tile stored
              (t ++ read_call tile_metrics :: write_tile_call m1 None :: evs)
            = fold_left
                (fun file ev =>
                   match ev with
                   | write_tile_call m2 thrown => stored file m2 thrown
                   | _ => file
                   end) evs (Some m1)).
  { intros m1 evs. unfold destination_tile.
    rewrite fold_left_app. simpl. by rewrite Hstored. }
  split; [|split].
  - intros t'. rewrite copy_tile_metrics_run; simpl.
    destruct read_interop_tile as [m [[]|]]; simpl; try done.
    all: destruct (size m =? 0)%nat; simpl; try done.
    all: destruct (write_interop_tile _ m) as [[]|] eqn:E1; simpl; try done.
    all: rewrite <- !app_assoc; simpl.
    all: destruct (write_interop_tile _ (filter_by_read _ _)) as [[]|];
      simpl; try done.
    all: intros [= <-]; split; [done|].
    all: split; rewrite Hdest; simpl; by rewrite ?Hstored.
  - unfold copy_tile_metrics, copy_tile_metrics_building.
    unfold mbind, M_bind, bind, ret, try_write.
    destruct (read_metrics_from_file read_tile t) as [t1 [[res ms]|e]];
      [|done].
    destruct (negb (res =? 0)); [done|].
    by destruct (write_tile ms t1) as [t' [[]|[]]].
  - intros Hthrown Hsize Hfirst.
    apply Nat.eqb_neq in Hsize.
    split; [by rewrite Hdest|]. split.
    + intros e.
      unfold copy_tile_metrics_building, read_metrics_from_file, read_tile,
        write_tile, try_write, mbind, M_bind, bind, ret, throw.
      destruct read_interop_tile as [m thrown]; simpl in *.
      rewrite Hsize.
      destruct Hthrown as [->| ->]; simpl; rewrite Hfirst; simpl;
        by rewrite <- app_assoc.
    + intros second Hsecond.
      rewrite copy_tile_metrics_run; simpl.
      destruct read_interop_tile as [m thrown]; simpl in *.
      rewrite Hsize.
      rewrite <- ?app_assoc. simpl.
      split; [|split].
      * destruct Hthrown as [->| ->]; rewrite Hfirst; simpl;
          rewrite <- ?app_assoc; simpl; by rewrite Hsecond.
      * by rewrite Hdest.
      * by destruct second as [[]|].
Qed.

(** X1.  The exit status of a run that returns: 0, [NO_INTEROPS_FOUND], or an
    error of the read or the write ([BAD_FORMAT], [UNEXPECTED_EXCEPTION],
    [EMPTY_INTEROP]) encoded with 1 for the tile copy and 2 for every
    per-cycle copy; the 1 that stands for a missing file never leaves
    [write_interops]. *)
Theorem write_interops_status (align : N) (t : trace) (r : Z) :
  snd (write_interops max_cycle max_read align t) = Returns r ->
  r ∈ [0; exit_code NO_INTEROPS_FOUND; 301; 302; 401; 402; 501; 502].
Proof.
  rewrite write_interops_run_plan.
  assert (Hrun : forall ks (n : Z) (t : trace),
            snd (run_plan ks n t) = Returns r ->
            r ∈ [0; 2; 301; 302; 401; 402; 501; 502]);
    [|apply Hrun].
  clear t. induction ks as [|k ks IH]; intros n t.
  - simpl. unfold ret. destruct (n =? 0); intros [= <-]; in_list.
  - rewrite run_plan_cons.
    destruct (copy_summary max_cycle max_read k t)
      as (ws & o1 & -> & _ & _ & _ & _ & Hrng).
    destruct o1 as [res|e]; [|done].
    destruct (Z.ltb_spec 1 res) as [Hres|Hres]; [|by apply IH].
    simpl. intros [= <-].
    destruct (Hrng res eq_refl) as [?|[?|Hfatal]]; [lia..|].
    assert (res = 3 \/ res = 4 \/ res = 5) as [->|[->| ->]] by lia;
      destruct k; in_list.
Qed.

End CopyClaims.

(** ** The claims on the sample run folders *)

(** C3.  The run on the cut tile file, where the claim, the comment of
    line 37 and the handler of a missing file say to go on: the read
    throws [incomplete_file_exception] and the run ends there with 501,
    where a missing tile file lets the run read the other five files and
    end with [NO_INTEROPS_FOUND]; and the tile file cut after its second
    record is not skipped either: its two records are written, twice. *)
Lemma incomplete_tile_not_skipped :
  snd (@read_interop_tile _ cut_tile_folder) = Some incomplete_file_exception
  /\ @write_interops _ cut_tile_folder 26 1 25 []
     = ([read_call tile_metrics], Returns 501)
  /\ @write_interops _ empty_folder 26 1 25 []
     = ([read_call tile_metrics;
         read_call (cycle_metrics error_metrics);
         read_call (cycle_metrics corrected_intensity_metrics);
         read_call (cycle_metrics extraction_metrics);
         read_call (cycle_metrics q_metrics);
         read_call (cycle_metrics image_metrics)],
        Returns (exit_code NO_INTEROPS_FOUND))
  /\ snd (@read_interop_tile _ partial_tile_folder)
     = Some incomplete_file_exception
  /\ written (fst (@write_interops _ partial_tile_folder 26 1 25 []))
     = [tile_metrics; tile_metrics].
Proof. by repeat split. Qed.



(** The complete run folder copied with [max_cycle = 10] ends with 0. *)
Lemma write_interops_status_witness :
  (0 : Z) ∈ [0; exit_code NO_INTEROPS_FOUND; 301; 302; 401; 402; 501; 502].
Proof.
  exact (@write_interops_status _ full_folder 10 1 cycle_to_align [] 0
           eq_refl).
Defined.

(** The scenario of two tiles with reads 1, 2 and 3 each, filtered with
    [max_read = 1]: two tiles with the read 1 each, and their tile-level
    fields. *)
Example two_tiles_max_read_1 :
  metrics (@filter_by_read sample_types 1 two_tiles)
  = [TileMetric (7 : N)%N [ReadMetric 1 (10 : N)%N];
     TileMetric (8 : N)%N [ReadMetric 1 (11 : N)%N]].
Proof. reflexivity. Qed.

(** The cut tile file: its read leaves no record, and the run ends with
    501 after it. *)
Lemma empty_metric_set_aborts_witness :
  @write_interops _ cut_tile_folder 26 1 25 []
  = ([read_call tile_metrics], Returns 501).
Proof.
  exact (proj2 (proj2 (@empty_metric_set_aborts _ cut_tile_folder 26 1 25
                         tile_copy [] 0 [] eq_refl (or_intror eq_refl)))
               eq_refl).
Defined.

(** The complete run folder copied with [max_read = 1], into an output
    folder where a write that throws leaves no usable file: the tile file
    ends as the filtered set; where the filtered set cannot be built, the
    copy ends after the first write, and the file is the set as read;
    where the second write fails, the copy returns [BAD_FORMAT]. *)
Lemma tile_copy_writes_twice_witness :
  destination_tile truncating (fst (@copy_tile_metrics _ full_folder 1 []))
  = Some (@filter_by_read sample_types 1 two_tiles)
  /\ @copy_tile_metrics_building _ full_folder (fun _ => throw std_exception) []
     = ([read_call tile_metrics; write_tile_call two_tiles None],
        Throws std_exception)
  /\ destination_tile truncating
       [read_call tile_metrics; write_tile_call two_tiles None]
     = Some two_tiles
  /\ @copy_tile_metrics _ failing_rewrite_folder 1 []
     = ([read_call tile_metrics;
         write_tile_call two_tiles None;
         write_tile_call (@filter_by_read sample_types 1 two_tiles)
                         (Some bad_format_exception)],
        Returns (exit_code BAD_FORMAT)).
Proof.
  assert (Hstored : @writes_what_it_returns_from sample_types truncating)
    by (intros file m; reflexivity).
  pose proof (@tile_copy_writes_twice _ full_folder 1 truncating [] Hstored)
    as (Hdone & _ & Hbetween).
  destruct Hbetween as (Hfile & Hstop & _);
    [by left|discriminate|reflexivity|].
  pose proof (@tile_copy_writes_twice _ failing_rewrite_folder 1 truncating []
                Hstored) as (_ & _ & Hsecond).
  destruct Hsecond as (_ & _ & Hsecond);
    [by left|discriminate|reflexivity|].
  split; [|split; [|split]].
  - exact (proj2 (proj2 (Hdone _ eq_refl))).
  - exact (Hstop std_exception).
  - exact Hfile.
  - exact (proj1 (Hsecond _ eq_refl)).
Defined.

End CycleSimFacts.

(** * Properties of the codec *)

Module CodecFacts.
Import Codec.

(** ** Little-endian integers *)

Lemma u8_bound (b : byte) : (u8 b < 256)%N.
Proof. unfold u8. pose proof (Byte.to_N_bounded b). lia. Qed.

Lemma byte_of_u8 (b : byte) : byte_of (u8 b) = b.
Proof.
  unfold byte_of. rewrite N.mod_small by apply u8_bound.
  unfold u8. by rewrite Byte.of_to_N.
Qed.

(** The low byte and the rest of a number given by its low byte. *)
Lemma byte_of_low (b : byte) (k : N) : byte_of (u8 b + 256 * k) = b.
Proof.
  rewrite <- (byte_of_u8 b) at 2. unfold byte_of.
  replace ((u8 b + 256 * k) mod 256)%N with (u8 b mod 256)%N; [done|].
  rewrite (N.mul_comm 256 k), N.Div0.mod_add. done.
Qed.

Lemma div_low (b : byte) (k : N) : ((u8 b + 256 * k) / 256 = k)%N.
Proof.
  pose proof (u8_bound b).
  rewrite (N.mul_comm 256 k), N.div_add by done.
  rewrite N.div_small by done. lia.
Qed.

Lemma encode_decode_u16 (b0 b1 : byte) :
  encode_u16 (decode_u16 b0 b1) = [b0; b1].
Proof.
  unfold encode_u16, decode_u16.
  rewrite byte_of_low, div_low, byte_of_u8. done.
Qed.

Lemma encode_decode_u32 (b0 b1 b2 b3 : byte) :
  encode_u32 (decode_u32 b0 b1 b2 b3) = [b0; b1; b2; b3].
Proof.
  unfold encode_u32, decode_u32.
  change 65536%N with (256 * 256)%N.
  change 16777216%N with (256 * (256 * 256))%N.
  rewrite <- !N.Div0.div_div.
  rewrite !div_low, !byte_of_low, byte_of_u8. done.
Qed.

(** ** Pieces of equal size *)

Lemma take_records_length (count size : nat) (bytes : list byte) :
  length (take_records count size bytes) = count.
Proof.
  revert bytes. induction count as [|count IH]; intros bytes; simpl; [done|].
  by rewrite IH.
Qed.

(** The pieces taken from enough bytes have the size asked for, and they
    are the bytes they were taken from. *)
Lemma take_records_sized (count size : nat) (bytes : list byte) :
  (count * size <= length bytes)%nat ->
  Forall (fun chunk => length chunk = size) (take_records count size bytes)
  /\ concat (take_records count size bytes) = firstn (count * size) bytes.
Proof.
  revert bytes. induction count as [|count IH]; intros bytes Hlen; simpl.
  - split; [constructor|done].
  - destruct (IH (skipn size bytes)) as [Hall Hcat].
    { rewrite length_skipn. simpl in Hlen. lia. }
    split.
    + constructor; [|done]. rewrite length_firstn. simpl in Hlen. lia.
    + rewrite Hcat. rewrite <- (firstn_skipn size bytes) at 3.
      rewrite firstn_app, length_firstn.
      replace (size + count * size - min size (length bytes))%nat
        with (count * size)%nat by (simpl in Hlen; lia).
      f_equal. rewrite firstn_firstn. f_equal. lia.
Qed.

Lemma encode_decode_sub_entry (chunk : list byte) :
  length chunk = sub_entry_size ->
  encode_sub_entry (decode_sub_entry chunk) = chunk.
Proof.
  intros Hlen. unfold sub_entry_size in Hlen.
  do 8 (destruct chunk as [|? chunk]; [simpl in Hlen; lia|]).
  destruct chunk; [|simpl in Hlen; lia].
  unfold encode_sub_entry, decode_sub_entry.
  cbn [sub_entry_read sub_entry_value].
  by rewrite !encode_decode_u32.
Qed.

(** Pieces that are decoded and encoded again are the bytes they were
    taken from. *)
Lemma concat_encode_decode {R} (dec : list byte -> R) (enc : R -> list byte)
    (count size : nat) (bytes : list byte) :
  (forall chunk, length chunk = size -> enc (dec chunk) = chunk) ->
  (count * size <= length bytes)%nat ->
  concat (map enc (map dec (take_records count size bytes)))
  = firstn (count * size) bytes.
Proof.
  intros Hround Hlen.
  destruct (take_records_sized count size bytes Hlen) as [Hall <-].
  f_equal. rewrite map_map.
  induction Hall as [|chunk chunks Hchunk _ IH]; simpl; [done|].
  by rewrite Hround, IH.
Qed.

(** ** What an accepted file looks like *)

(** A file [read_fixed] accepts is a supported version, the two bytes of
    the expected record size, the extra fields of the set and as many
    pieces of that size as the set has records, which are those pieces
    decoded. *)
Lemma read_fixed_shape (c : fixed_codec) (file : list byte) m :
  fixed_laws c ->
  read_fixed c (Some file) = Ok m ->
  let h := fixed_header c in
  let size := N.to_nat (expected_record_size c (version m)) in
  exists b0 b1 body,
    file = version m :: b0 :: b1
           :: write_extra h (version m) (header_extra m) ++ body
    /\ supported h (version m) = true
    /\ decode_u16 b0 b1 = expected_record_size c (version m)
    /\ length body = (length (records m) * size)%nat
    /\ records m
       = map (decode c (version m) (header_extra m))
             (take_records (length (records m)) size body).
Proof.
  intros [[_ Hwrite _] _]. unfold read_fixed, parse_header.
  destruct file as [|v [|b0 [|b1 rest]]]; try done;
    destruct (supported (fixed_header c) v) eqn:Hv; simpl; try done.
  destruct (N.eqb_spec (decode_u16 b0 b1) (expected_record_size c v))
    as [Hsize|]; simpl; [|done].
  destruct (parse_extra (fixed_header c) v rest) as [[x body]|] eqn:Hx;
    [|done].
  apply Hwrite in Hx as ->. simpl.
  destruct (N.eqb_spec (N.of_nat (length body)) 0) as [Hempty|Hne].
  { intros [= <-]. simpl. exists b0, b1, body.
    repeat split; try done. lia. }
  destruct (N.eqb_spec (N.of_nat (length body) mod expected_record_size c v) 0)
    as [Hmod|]; simpl; [|done].
  intros [= <-]. simpl. exists b0, b1, body.
  rewrite length_map, take_records_length.
  assert (expected_record_size c v <> 0)%N as Hpos.
  { intros H0. rewrite H0, N.mod_0_r in Hmod. done. }
  apply N.Div0.div_exact in Hmod.
  repeat split; try done. nia.
Qed.

(** A decode step splits its bytes into the encoding of the record and
    the bytes after it. *)
Lemma decode_tile_bytes (c : tile_codec) (v : byte) (bytes : list byte) r rest :
  tile_laws c ->
  decode_tile c v bytes = Ok (r, rest) ->
  bytes = encode_tile c v r ++ rest.
Proof.
  intros [_ Hprefix]. unfold decode_tile, encode_tile.
  destruct (Nat.ltb_spec (length bytes) (Pos.to_nat (base_size c)))
    as [|Hbase]; [done|].
  specialize (Hprefix v (firstn (Pos.to_nat (base_size c)) bytes)).
  destruct (decode_prefix c v _) as [s n]. simpl in Hprefix.
  destruct (count_consistent c v n); simpl; [|done].
  destruct (Nat.ltb_spec (length (skipn (Pos.to_nat (base_size c)) bytes))
                         (N.to_nat n * sub_entry_size)) as [|Hsubs]; [done|].
  intros [= <- <-]. simpl.
  rewrite length_map, take_records_length, N2Nat.id.
  rewrite Hprefix by (rewrite length_firstn; lia).
  rewrite concat_encode_decode
    by (try apply encode_decode_sub_entry; done).
  by rewrite <- app_assoc, !firstn_skipn.
Qed.

(** The tile records read from [bytes] encode to [bytes]. *)
Lemma read_tiles_bytes (c : tile_codec) (v : byte) (bytes : list byte) rs :
  tile_laws c ->
  read_tiles c v bytes = Ok rs ->
  concat (map (encode_tile c v) rs) = bytes.
Proof.
  intros Hlaws. revert rs.
  funelim (read_tiles c v bytes); intros rs'; try done.
  - by intros [= <-].
  - intros [= <-]. simpl.
    rewrite (decode_tile_bytes _ _ _ _ _ Hlaws Hstep). f_equal.
    by apply Hind.
Qed.

(** ** The sample categories keep the laws *)

Lemma channel_header_laws versions : header_laws (channel_header versions).
Proof.
  split.
  - by intros v x rest.
  - intros v [|b bytes] x rest; [done|]. by intros [= -> ->].
  - intros v x [|n] Hn; [done|]. simpl in Hn. lia.
Qed.

Lemma plain_header_laws versions : header_laws (plain_header versions).
Proof.
  split.
  - by intros v [] rest.
  - by intros v bytes [] rest [= ->].
  - intros v x n Hn. simpl in Hn. lia.
Qed.

Lemma sample_cycle_laws : fixed_laws sample_cycle_codec.
Proof.
  split; [apply channel_header_laws|].
  intros v x chunk Hlen. simpl in Hlen.
  do 6 (destruct chunk as [|? chunk]; [simpl in Hlen; lia|]).
  destruct chunk; [|simpl in Hlen; lia].
  cbn [encode decode sample_cycle_codec].
  by rewrite !encode_decode_u16.
Qed.

Lemma sample_tile_laws : tile_laws sample_tile_codec.
Proof.
  split; [apply plain_header_laws|].
  intros v prefix Hlen. simpl in Hlen.
  do 6 (destruct prefix as [|? prefix]; [simpl in Hlen; lia|]).
  destruct prefix; [|simpl in Hlen; lia].
  cbn [encode_prefix decode_prefix sample_tile_codec fst snd].
  by rewrite !encode_decode_u16.
Qed.

(** ** The claims about the codec *)

(** The reader and the writer keep the round trip of the codecs they are
    given.  For every category, fixed-size or variable-size, whose codecs
    keep the laws, and every byte stream the reader accepts, the writer
    applied to the metric set read gives back the bytes read; and what the
    writer emits is the header followed by the encodings of the records in
    the order of the container.  The codecs of the categories of the
    library are given neither by [src/] nor by the spec: of them this says
    nothing. *)
Theorem write_read_roundtrip (c : category_codec) (bytes : list byte)
    (m : metric_set_of c) :
  lawful c ->
  read c (Some bytes) = Ok m ->
  write c m = bytes
  /\ write c m = header_bytes c m ++ concat (record_bytes c m).
Proof.
  destruct c as [c|c]; simpl; intros Hlaws Hread; (split; [|done]).
  - destruct (read_fixed_shape c bytes m Hlaws Hread)
      as (b0 & b1 & body & -> & _ & Hsize & Hlen & Hrecords).
    unfold write_fixed, write_header.
    rewrite <- Hsize, encode_decode_u16, Hrecords. simpl. do 3 f_equal.
    rewrite concat_encode_decode.
    + by rewrite <- Hlen, firstn_all.
    + intros chunk. apply (encode_decode _ Hlaws).
    + lia.
  - unfold read_variable, parse_header in Hread.
    destruct bytes as [|v rest]; [done|].
    destruct (supported (tile_header c) v); simpl in Hread; [|done].
    destruct (parse_extra (tile_header c) v rest) as [[x body]|] eqn:Hx;
      [|done].
    apply (write_parse_extra _ (tile_header_laws _ Hlaws)) in Hx as ->.
    simpl in Hread.
    destruct (read_tiles c v body) as [rs|] eqn:Hrs; [|done].
    injection Hread as <-.
    unfold write_variable, write_header. simpl. do 2 f_equal.
    by apply read_tiles_bytes.
Qed.

(** A remainder of a whole number of records less a part of one. *)
Lemma cut_not_whole (k size cut : nat) :
  (0 < k)%nat ->
  (0 < cut < size)%nat ->
  (N.of_nat (k * size - cut) mod N.of_nat size <> 0)%N.
Proof.
  intros Hk Hcut Hmod. apply N.Div0.mod_divides in Hmod as [q Hq].
  assert (k * size - cut = size * N.to_nat q)%nat as Hq' by lia.
  assert (N.to_nat q < k)%nat by nia.
  assert (cut = size * (k - N.to_nat q))%nat by nia.
  nia.
Qed.

(** C2.  Let the reader accept a file of a fixed-size category whose codecs
    keep the laws: the file is a header of [header_len] bytes and the
    records of the set, each of the expected size.  Then the reader fails
    with [IncompleteFile], and so returns no set, on every prefix shorter
    than the header, on every longer strict prefix that ends inside a
    record, and on the file less its last [cut] bytes for every [cut] above
    zero and below the record size. *)
Theorem truncated_file_is_incomplete (c : fixed_codec) (file : list byte)
    (m : metric_set_of (fixed_size c)) :
  fixed_laws c ->
  read (fixed_size c) (Some file) = Ok m ->
  let size := expected_record_size c (version m) in
  let header_len :=
    (3 + length (write_extra (fixed_header c) (version m) (header_extra m)))%nat
  in
  length file = (header_len + length (records m) * N.to_nat size)%nat
  /\ (forall i : nat,
        (i < header_len)%nat ->
        read (fixed_size c) (Some (firstn i file)) = Err IncompleteFile)
  /\ (forall i : nat,
        (header_len < i < length file)%nat ->
        (N.of_nat (i - header_len) mod size <> 0)%N ->
        read (fixed_size c) (Some (firstn i file)) = Err IncompleteFile)
  /\ (forall cut : nat,
        (0 < cut)%nat -> (N.of_nat cut < size)%N ->
        read (fixed_size c) (Some (firstn (length file - cut) file))
        = Err IncompleteFile).
Proof.
  simpl. intros Hlaws Hread.
  destruct (read_fixed_shape c file m Hlaws Hread)
    as (b0 & b1 & body & -> & Hv & Hsize & Hlen & _).
  destruct Hlaws as [[Hparse _ Hcut] _].
  set (v := version m) in *. set (x := header_extra m) in *.
  set (we := write_extra (fixed_header c) v x) in *.
  assert (Hshort : forall i : nat,
    (i < 3 + length we)%nat ->
    read_fixed c (Some (firstn i (v :: b0 :: b1 :: we ++ body)))
    = Err IncompleteFile).
  { intros i Hi. unfold read_fixed, parse_header.
    destruct i as [|[|[|i]]]; simpl; rewrite ?Hv; simpl; try done.
    rewrite Hsize, N.eqb_refl. simpl.
    rewrite firstn_app. replace (i - length we)%nat with 0%nat by lia.
    rewrite firstn_O, app_nil_r. subst we. rewrite Hcut by lia. done. }
  assert (Hmid : forall i : nat,
    (3 + length we < i < length (v :: b0 :: b1 :: we ++ body))%nat ->
    (N.of_nat (i - (3 + length we))
       mod expected_record_size c v <> 0)%N ->
    read_fixed c (Some (firstn i (v :: b0 :: b1 :: we ++ body)))
    = Err IncompleteFile).
  { intros i Hi Hmod. unfold read_fixed, parse_header.
    simpl in Hi. rewrite length_app in Hi.
    destruct i as [|[|[|i]]]; [lia..|]. simpl. rewrite Hv. simpl.
    rewrite Hsize, N.eqb_refl. simpl.
    rewrite firstn_app, firstn_all2 by lia.
    subst we. rewrite Hparse. simpl.
    set (we := write_extra (fixed_header c) v x) in *.
    replace (S (S (S i)) - (3 + length we))%nat
      with (i - length we)%nat in Hmod by lia.
    rewrite length_firstn.
    replace (min (i - length we) (length body)) with (i - length we)%nat
      by lia.
    destruct (N.eqb_spec (N.of_nat (i - length we)) 0); [lia|].
    by destruct (N.eqb_spec (N.of_nat (i - length we)
                               mod expected_record_size c v) 0). }
  split; [simpl; rewrite length_app; lia|].
  split; [done|]. split; [done|].
  intros cut Hcut0 Hcut1.
  set (file := v :: b0 :: b1 :: we ++ body) in *.
  assert (length file = (3 + length we + length body)%nat) as Hfile
    by (subst file; simpl; rewrite length_app; lia).
  destruct (Nat.lt_ge_cases (length file - cut) (3 + length we))
    as [Hin|Hout]; [by apply Hshort|].
  assert (0 < length (records m))%nat by nia.
  apply Hmid; [nia|].
  replace (length file - cut - (3 + length we))%nat
    with (length (records m) * N.to_nat (expected_record_size c v) - cut)%nat
    by lia.
  rewrite <- (N2Nat.id (expected_record_size c v)) at 2.
  apply cut_not_whole; lia.
Qed.

(** C6.  For every category and every byte stream whose first byte is not a
    supported version of the category, the reader fails with
    [BadFormat UnsupportedVersion]: it returns no metric set. *)
Theorem unsupported_version_rejected (c : category_codec) (v : byte)
    (rest : list byte) :
  supported_version c v = false ->
  read c (Some (v :: rest)) = Err (BadFormat UnsupportedVersion).
Proof.
  destruct c as [c|c]; simpl; intros Hv;
    unfold read_fixed, read_variable, parse_header; by rewrite Hv.
Qed.

(** C7.  For every category that declares its record size (the fixed-size
    categories) and every byte stream that starts with a supported version
    followed by two bytes that are not the little-endian expected record
    size of that version, the reader fails with
    [BadFormat RecordSizeMismatch], whatever bytes follow. *)
Theorem record_size_mismatch_rejected (c : fixed_codec) (v b0 b1 : byte)
    (rest : list byte) :
  supported (fixed_header c) v = true ->
  decode_u16 b0 b1 <> expected_record_size c v ->
  read (fixed_size c) (Some (v :: b0 :: b1 :: rest))
  = Err (BadFormat RecordSizeMismatch).
Proof.
  intros Hv Hsize. simpl. unfold read_fixed, parse_header.
  rewrite Hv. simpl.
  by destruct (N.eqb_spec (decode_u16 b0 b1) (expected_record_size c v)).
Qed.

(** ** The claims on the sample files *)

(** The reader accepts the two sample files, and the writer gives them
    back. *)
Lemma write_read_roundtrip_witness :
  (exists m,
     read (fixed_size sample_cycle_codec) (Some sample_cycle_file) = Ok m
     /\ write (fixed_size sample_cycle_codec) m = sample_cycle_file)
  /\ (exists m,
        read (variable_size sample_tile_codec) (Some sample_tile_file) = Ok m
        /\ write (variable_size sample_tile_codec) m = sample_tile_file).
Proof.
  split; eexists; (split; [vm_compute; reflexivity|]).
  - exact (proj1 (write_read_roundtrip (fixed_size sample_cycle_codec)
                    sample_cycle_file _ sample_cycle_laws eq_refl)).
  - exact (proj1 (write_read_roundtrip (variable_size sample_tile_codec)
                    sample_tile_file _ sample_tile_laws eq_refl)).
Defined.

(** The sample per-cycle file has a header of 4 bytes and two records of 6:
    it is incomplete when cut to 2 bytes, to 7 bytes, and when it loses its
    last 4 bytes. *)
Lemma truncated_file_is_incomplete_witness :
  read (fixed_size sample_cycle_codec) (Some (firstn 2 sample_cycle_file))
  = Err IncompleteFile
  /\ read (fixed_size sample_cycle_codec) (Some (firstn 7 sample_cycle_file))
     = Err IncompleteFile
  /\ read (fixed_size sample_cycle_codec)
          (Some (firstn (length sample_cycle_file - 4) sample_cycle_file))
     = Err IncompleteFile.
Proof.
  pose proof (truncated_file_is_incomplete sample_cycle_codec
                sample_cycle_file _ sample_cycle_laws eq_refl)
    as (_ & Hshort & Hmid & Hcut).
  split; [|split].
  - apply (Hshort 2%nat). simpl. lia.
  - apply (Hmid 7%nat); simpl; [lia|done].
  - apply (Hcut 4%nat); simpl; lia.
Defined.

(** The sample files with 34 for a version (the version the stream tests
    use). *)
Lemma unsupported_version_rejected_witness :
  read (fixed_size sample_cycle_codec)
       (Some (Byte.x22 :: tail sample_cycle_file))
  = Err (BadFormat UnsupportedVersion)
  /\ read (variable_size sample_tile_codec)
          (Some (Byte.x22 :: tail sample_tile_file))
     = Err (BadFormat UnsupportedVersion).
Proof.
  split.
  - exact (unsupported_version_rejected (fixed_size sample_cycle_codec)
             Byte.x22 _ eq_refl).
  - exact (unsupported_version_rejected (variable_size sample_tile_codec)
             Byte.x22 _ eq_refl).
Defined.

(** The sample per-cycle file with a declared record size of zero (the
    stream tests zero the bytes 1 and 2). *)
Lemma record_size_mismatch_rejected_witness :
  read (fixed_size sample_cycle_codec)
       (Some (Byte.x03 :: Byte.x00 :: Byte.x00 :: skipn 3 sample_cycle_file))
  = Err (BadFormat RecordSizeMismatch).
Proof.
  apply record_size_mismatch_rejected; [reflexivity|].
  vm_compute. discriminate.
Defined.

End CodecFacts.

(** * Further properties of the cycle simulator *)

Module DriverFacts.
Import CycleSim CycleSimFacts Driver.

(** ** The filters *)

Section Filters.
Context {MT : metric_types}.

(** A filter keeps a list as it is exactly when every element passes, and
    otherwise shortens it. *)
Lemma filter_all {A} (P : A -> Prop) `{!forall x, Decision (P x)} (l : list A) :
  (filter P l = l <-> Forall P l)
  /\ (length (filter P l) = length l <-> Forall P l).
Proof.
  assert (Hlen : length (filter P l) = length l -> Forall P l).
  { induction l as [|x l IH]; [constructor|].
    rewrite filter_cons. pose proof (length_filter P l).
    destruct (decide (P x)); simpl; intros Hl; [|lia].
    constructor; [done|]. apply IH. lia. }
  assert (Hall : Forall P l -> filter P l = l).
  { clear Hlen. induction 1 as [|x l Hx _ IH]; [done|].
    rewrite filter_cons. destruct (decide (P x)); [|done]. by rewrite IH. }
  split; split; try done.
  - intros Heq. apply Hlen. by rewrite Heq.
  - intros HP. by rewrite Hall.
Qed.

(** X3.  Filtering a tile metric set by read twice is filtering it by the
    smaller bound. *)
Theorem filter_by_read_twice (a b : N) (m : tile_metric_set) :
  filter_by_read a (filter_by_read b m) = filter_by_read (N.min a b) m.
Proof.
  unfold filter_by_read. cbn [metrics version header]. f_equal.
  rewrite !tile_subset_map, map_map. apply map_ext. intros t.
  unfold keep_reads. cbn [tile_fields read_metrics]. f_equal.
  rewrite list_filter_filter. apply list_filter_iff. intros e. lia.
Qed.

(** X4.  The cycle filter never adds a record; it gives back the set as it
    is exactly when no record is beyond [max_cycle], which is also when it
    keeps the number of records; and a smaller bound keeps a sublist of
    what a larger bound keeps. *)
Theorem filter_by_cycle_verbatim c (max_cycle : N) (m : cycle_metric_set c) :
  let within := Forall (fun r => (cycle r <= max_cycle)%N) (metrics m) in
  (size (filter_by_cycle max_cycle m) <= size m)%nat
  /\ (filter_by_cycle max_cycle m = m <-> within)
  /\ (size (filter_by_cycle max_cycle m) = size m <-> within)
  /\ (forall smaller : N,
        (smaller <= max_cycle)%N ->
        metrics (filter_by_cycle smaller m)
          `sublist_of` metrics (filter_by_cycle max_cycle m)).
Proof.
  intros within. subst within. unfold size, filter_by_cycle.
  cbn [metrics version header]. rewrite cycle_subset_filter.
  destruct (filter_all (fun r => (cycle r <= max_cycle)%N) (metrics m))
    as [Hsame Hlen].
  split; [apply length_filter|]. split; [|split; [done|]].
  - rewrite <- Hsame. destruct m as [ms v h]. cbn [metrics version header].
    split; [by intros [= ->]|by intros ->].
  - intros smaller Hle. rewrite cycle_subset_filter.
    replace (filter (fun r => (cycle r <= smaller)%N) (metrics m))
      with (filter (fun r => (cycle r <= smaller)%N)
              (filter (fun r => (cycle r <= max_cycle)%N) (metrics m))).
    + apply sublist_filter.
    + rewrite list_filter_filter. apply list_filter_iff. intros r. lia.
Qed.

(** X5.  The read filter gives back a tile metric set as it is exactly when
    no read entry of any tile is beyond [max_read]: only then do the two
    writes of [copy_tile_metrics] write the same set. *)
Theorem filter_by_read_verbatim (max_read : N) (m : tile_metric_set) :
  filter_by_read max_read m = m
  <-> Forall (fun t => Forall (fun e => (read e <= max_read)%N)
                              (read_metrics t)) (metrics m).
Proof.
  unfold filter_by_read. rewrite tile_subset_map.
  destruct m as [ms v h]. cbn [metrics version header].
  assert (map (keep_reads max_read) ms = ms
          <-> Forall (fun t => Forall (fun e => (read e <= max_read)%N)
                                      (read_metrics t)) ms) as <-.
  { induction ms as [|t ms IH]; simpl.
    - split; [constructor|done].
    - pose proof (proj1 (filter_all (fun e => (read e <= max_read)%N)
                                    (read_metrics t))) as Ht.
      unfold keep_reads at 1. destruct t as [b rs].
      cbn [tile_fields read_metrics] in *.
      split.
      + intros [= Hrs Hms]. constructor; [by apply Ht|by apply IH].
      + intros Hall. apply Forall_cons_1 in Hall as [Hrs Hms].
        apply Ht in Hrs. apply IH in Hms. by rewrite Hrs, Hms. }
  split; [by intros [= ->]|by intros ->].
Qed.

End Filters.

(** ** One call of a copy function, in full *)

(** Closes a case of [copy_block]. *)
Ltac block :=
  eexists _, _;
  split; [rewrite <- ?app_assoc; reflexivity|];
  repeat split; intros; simplify_eq/=;
  repeat match goal with
         | H : _ /\ _ |- _ => destruct H
         | H : _ \/ _ |- _ => destruct H
         end;
  simplify_eq/=;
  try done; try lia; try (by in_list); try (right; by in_list);
  try (repeat constructor; done); try (by auto);
  try (by exists BAD_FORMAT; split; [|left]);
  try (by exists BAD_FORMAT; split; [|right; in_list]);
  try (by exists UNEXPECTED_EXCEPTION);
  try (by exists EMPTY_INTEROP; auto).

Section Calls.
Context {MT : metric_types} {W : world MT}.
Variables max_cycle max_read : N.

#[local] Abbreviation copy := (copy max_cycle max_read).
#[local] Abbreviation run_plan := (run_plan max_cycle max_read).

(** One call reads its category once and then only writes that category,
    and only if its file can be copied; it returns 0 only for such a file
    and 1 exactly for a missing one; what it throws is what a write of its
    own threw, never [bad_format_exception], or the foreign exception of
    its read. *)
Lemma copy_block k (t : trace) :
  exists ws o,
    copy k t = (t ++ read_call (category_of k) :: ws, o)
    /\ reads_of ws = []
    /\ Forall (eq (category_of k)) (write_attempts ws)
    /\ (ws <> [] -> copyable k)
    /\ (o = Returns 0 -> copyable k)
    /\ (o = Returns 1 <-> missing k)
    /\ (forall r, o = Returns r -> r = 0 \/ r = 1 \/ 3 <= r <= 5)
    /\ (forall e, o = Throws e ->
          e <> bad_format_exception
          /\ (ws = [] /\ e = foreign_exception
                 /\ read_thrown k = Some foreign_exception
              \/ e ∈ write_throws ws))
    /\ (write_throws ws = [] -> copyable k -> o = Returns 0)
    /\ (forall r, o = Returns r -> 1 < r ->
          exists code, r = exit_code code /\ diagnosis k (write_throws ws) code).
Proof.
  destruct k as [|c];
    unfold copyable, missing, diagnosis, read_thrown, read_size; simpl.
  - rewrite copy_tile_metrics_run; simpl.
    destruct read_interop_tile as [m [[]|]]; simpl; try (by block).
    all: destruct (Nat.eqb_spec (size m) 0); [by block|].
    all: destruct (write_interop_tile _ m) as [e1|]; simpl;
      [by destruct e1; block|].
    all: destruct (write_interop_tile _ (filter_by_read _ _)) as [e2|]; simpl;
      [by destruct e2; block|by block].
  - rewrite copy_cycle_metrics_run; simpl.
    destruct (read_interop_cycle c) as [m [[]|]]; simpl; try (by block).
    all: destruct (Nat.eqb_spec (size m) 0); [by block|].
    all: destruct (write_interop_cycle c _ _) as [e|]; simpl;
      [by destruct e; block|by block].
Qed.

Lemma write_attempts_app (t1 t2 : trace) :
  write_attempts (t1 ++ t2) = write_attempts t1 ++ write_attempts t2.
Proof. apply omap_app. Qed.

Lemma write_throws_app (t1 t2 : trace) :
  write_throws (t1 ++ t2) = write_throws t1 ++ write_throws t2.
Proof. apply omap_app. Qed.

Lemma encoded_status (code : exit_codes) k :
  3 <= exit_code code <= 5 ->
  2 < encode_error (exit_code code) (error_type k)
  /\ Z.quot (encode_error (exit_code code) (error_type k)) 100
     = exit_code code
  /\ Z.rem (encode_error (exit_code code) (error_type k)) 100 = error_type k.
Proof. destruct code, k; simpl; intros; try lia; by vm_compute. Qed.

(** The run of the calls [ks] from [valid_count = n]. *)
Lemma run_plan_block ks :
  forall (n : Z) (t : trace), 0 <= n ->
  exists evs o,
    run_plan ks n t = (t ++ evs, o)
    /\ (forall cat, cat ∈ write_attempts evs ->
          exists k, k ∈ ks /\ category_of k = cat /\ copyable k)
    /\ (forall e, o = Throws e ->
          e <> bad_format_exception
          /\ (e = foreign_exception
                /\ Exists (fun k => read_thrown k = Some foreign_exception) ks
              \/ e ∈ write_throws evs))
    /\ (o = Returns 0 ->
          Forall (fun k => missing k \/ copyable k) ks
          /\ (n <> 0 \/ Exists copyable ks))
    /\ (write_throws evs = [] ->
          Forall (fun k => missing k \/ copyable k) ks ->
          n <> 0 \/ Exists copyable ks ->
          o = Returns 0)
    /\ (forall r, o = Returns r ->
          r = 0 \/ r = exit_code NO_INTEROPS_FOUND
          \/ exists k code,
               k ∈ ks
               /\ list.last (reads_of evs) = Some (category_of k)
               /\ r = encode_error (exit_code code) (error_type k)
               /\ diagnosis k (write_throws evs) code).
Proof.
  induction ks as [|k ks IH]; intros n t Hn.
  - simpl. unfold ret. exists [].
    destruct (Z.eqb_spec n 0) as [->|Hne]; eexists;
      (split; [by rewrite app_nil_r|]); simpl.
    + repeat split; intros; simplify_eq; try done.
      * by apply elem_of_nil in H.
      * destruct H1 as [?|HE]; [done|]. by apply Exists_nil in HE.
      * auto.
    + repeat split; intros; simplify_eq; try done.
      * by apply elem_of_nil in H.
      * by left.
      * auto.
  - rewrite run_plan_cons.
    destruct (copy_block k t)
      as (ws & o1 & -> & Hr & Hcat & Hws & H0 & H1 & Hrng & Hthrow & Hok & Hdiag).
    assert (Hattempt : forall cat, cat ∈ write_attempts ws ->
              exists k', k' ∈ k :: ks /\ category_of k' = cat /\ copyable k').
    { intros cat Hin. exists k. split; [by left|].
      split; [apply list_elem_of_In in Hin;
              exact (proj1 (List.Forall_forall _ _) Hcat _ Hin)|].
      apply Hws. intros ->. by apply elem_of_nil in Hin. }
    destruct o1 as [res|e].
    + destruct (Z.ltb_spec 1 res) as [Hres|Hres].
      * (* the call aborts the run *)
        destruct (Hdiag res eq_refl Hres) as (code & -> & Hcode).
        assert (3 <= exit_code code <= 5) as Hfatal
          by (destruct (Hrng _ eq_refl) as [?|[?|?]]; lia).
        destruct (encoded_status code k Hfatal) as (Hbig & _ & _).
        eexists _, _. split; [reflexivity|].
        rewrite reads_of_read, Hr. simpl.
        split; [done|]. split; [done|].
        split; [intros [= ?]; lia|].
        split.
        { intros Hnone [Hk _]%Forall_cons_1 _. exfalso.
          destruct Hk as [Hk|Hk].
          - apply H1 in Hk. simplify_eq. simpl in *. lia.
          - apply (Hok Hnone) in Hk. simplify_eq. simpl in *. lia. }
        intros r [= <-]. right. right. exists k, code.
        split; [by left|done].
      * (* the run goes on *)
        assert (res = 0 \/ res = 1) as Hres01
          by (destruct (Hrng res eq_refl) as [?|[?|?]]; lia).
        destruct (IH (count_valid res n) (t ++ read_call (category_of k) :: ws))
          as (evs & o & -> & Hatt & Hthr & Hzero & Hconv & Hstat).
        { unfold count_valid. destruct (res =? 0); lia. }
        exists (read_call (category_of k) :: ws ++ evs), o.
        split; [by rewrite <- app_assoc|].
        change (read_call (category_of k) :: ws ++ evs)
          with ([read_call (category_of k)] ++ (ws ++ evs)).
        rewrite !write_attempts_app, !write_throws_app, !reads_of_app, Hr.
        simpl.
        split; [|split; [|split; [|split]]].
        -- intros cat [Hin|Hin]%elem_of_app; [by apply Hattempt|].
           destruct (Hatt cat Hin) as (k' & ? & ? & ?).
           exists k'. split; [by right|done].
        -- intros e He. destruct (Hthr e He) as [Hnb [[-> HE]|Hin]].
           ++ split; [done|]. left. split; [done|]. by apply Exists_cons_tl.
           ++ split; [done|]. right. apply elem_of_app. by right.
        -- intros Ho. destruct (Hzero Ho) as [HF Hsome].
           assert (missing k \/ copyable k) as Hk.
           { destruct Hres01 as [->| ->]; [right; by apply H0|left; by apply H1]. }
           split; [by constructor|].
           destruct Hres01 as [->| ->]; unfold count_valid in Hsome;
             simpl in Hsome.
           ++ right. apply Exists_cons_hd. by apply H0.
           ++ destruct Hsome as [?|?]; [by left|right; by apply Exists_cons_tl].
        -- intros Hnone [Hk HF]%Forall_cons_1 Hsome.
           apply app_eq_nil in Hnone as [Hnone1 Hnone2].
           apply Hconv; [done|done|].
           destruct Hk as [Hk|Hk].
           ++ pose proof Hk as Hm. apply H1 in Hk. simplify_eq.
              unfold count_valid. simpl.
              destruct Hsome as [?|HE]; [by left|].
              apply Exists_cons in HE as [Hc|?]; [|by right].
              unfold missing in Hm.
              destruct Hc as [_ [Hc|Hc]]; congruence.
           ++ apply (Hok Hnone1) in Hk. simplify_eq. unfold count_valid.
              simpl. left. lia.
        -- intros r Hor. destruct (Hstat r Hor) as [?|[?|Hfail]]; [auto..|].
           right. right. destruct Hfail as (k' & code & ? & Hlast & ? & Hd).
           exists k', code. split; [by right|].
           split; [by rewrite last_cons, Hlast|]. split; [done|].
           destruct code; simpl in *; try done.
           destruct Hd as [?|?]; [by left|right]. apply elem_of_app. by right.
    + (* the call throws *)
      destruct (Hthrow e eq_refl) as [Hnb Hwho].
      eexists _, _. split; [reflexivity|].
      split; [done|]. split; [|split; [done|split; [|done]]].
      * intros e' [= <-]. split; [done|].
        destruct Hwho as [(-> & -> & Hf)|Hin]; [|by right].
        left. split; [done|]. by apply Exists_cons_hd.
      * intros Hnone [Hk _]%Forall_cons_1 _. exfalso.
        destruct Hk as [Hk|Hk].
        -- by apply H1 in Hk.
        -- by apply (Hok Hnone) in Hk.
Qed.

(** Where no write fails, no trace records a thrown write. *)
Lemma copy_writes_succeed k (t : trace) :
  writes_succeed W -> write_throws (fst (copy k t)) = write_throws t.
Proof.
  intros [Htile Hcycle]. destruct k as [|c]; simpl.
  - rewrite copy_tile_metrics_run; simpl. rewrite !Htile.
    destruct read_interop_tile as [m [[]|]]; simpl;
      try destruct (size m =? 0)%nat; simpl;
      rewrite ?write_throws_app; simpl; by rewrite ?app_nil_r.
  - rewrite copy_cycle_metrics_run; simpl. rewrite !Hcycle.
    destruct (read_interop_cycle c) as [m [[]|]]; simpl;
      try destruct (size m =? 0)%nat; simpl;
      rewrite ?write_throws_app; simpl; by rewrite ?app_nil_r.
Qed.

Lemma run_plan_writes_succeed ks (n : Z) (t : trace) :
  writes_succeed W -> write_throws (fst (run_plan ks n t)) = write_throws t.
Proof.
  intros Hw. revert n t. induction ks as [|k ks IH]; intros n t.
  - simpl. unfold ret. by destruct (n =? 0).
  - rewrite run_plan_cons. pose proof (copy_writes_succeed k t Hw) as Hk.
    destruct (copy k t) as [t' [res|e]]; simpl in *; [|done].
    destruct (1 <? res); [done|]. by rewrite IH.
Qed.

Lemma category_of_inj k1 k2 : category_of k1 = category_of k2 -> k1 = k2.
Proof. destruct k1, k2; simpl; congruence. Qed.

(** ** The run of [write_interops] *)

(** X6.  A run of [write_interops] that returns a status other than 0 and
    [NO_INTEROPS_FOUND] was ended by one of its calls, whose category is
    the last one read: the status divided by 100 is the exit code of what
    went wrong with that call, and its remainder is 1 for the tile copy and
    2 for a per-cycle copy.  The code is [BAD_FORMAT] after a read or a
    write that threw [bad_format_exception], [UNEXPECTED_EXCEPTION] after a
    read that threw another [std::exception], and [EMPTY_INTEROP] after a
    read that left no record. *)
Theorem failed_status_decodes (align : N) (r : Z) :
  let run := write_interops max_cycle max_read align [] in
  snd run = Returns r ->
  r <> 0 ->
  r <> exit_code NO_INTEROPS_FOUND ->
  exists k code,
    k ∈ plan max_cycle align
    /\ list.last (reads_of (fst run)) = Some (category_of k)
    /\ Z.quot r 100 = exit_code code
    /\ Z.rem r 100 = error_type k
    /\ diagnosis k (write_throws (fst run)) code.
Proof.
  simpl. rewrite write_interops_run_plan.
  destruct (run_plan_block (plan max_cycle align) 0 [])
    as (evs & o & -> & _ & _ & _ & _ & Hstat); [done|].
  simpl. intros Ho Hne0 Hne2.
  destruct (Hstat r Ho) as [?|[?|(k & code & Hin & Hlast & -> & Hd)]];
    [done..|].
  exists k, code.
  assert (3 <= exit_code code <= 5) as Hfatal by (by destruct code).
  destruct (encoded_status code k Hfatal) as (_ & Hq & Hr).
  done.
Qed.


(** X8.  [write_interops] attempts a write of a category only for one of
    its calls whose file can be copied: nothing is written, not even by a
    write that fails, for a category whose read threw anything but
    [incomplete_file_exception] or left no record, nor for the error
    metrics when they are not among the calls. *)
Theorem writes_only_copyable (align : N) k :
  let run := write_interops max_cycle max_read align [] in
  category_of k ∈ write_attempts (fst run) ->
  k ∈ plan max_cycle align /\ copyable k.
Proof.
  simpl. rewrite write_interops_run_plan.
  destruct (run_plan_block (plan max_cycle align) 0 [])
    as (evs & o & -> & Hatt & _); [done|].
  simpl. intros Hin.
  destruct (Hatt _ Hin) as (k' & Hk' & Heq & Hc).
  by apply category_of_inj in Heq as ->.
Qed.

(** X9.  [write_interops] returns 0 only if the file of every call is
    missing or can be copied, and that of at least one call can be copied;
    where no write fails, it returns 0 whenever that holds. *)
Theorem write_interops_succeeds (align : N) :
  let run := write_interops max_cycle max_read align [] in
  let fine := Forall (fun k => missing k \/ copyable k) (plan max_cycle align)
              /\ Exists copyable (plan max_cycle align) in
  (snd run = Returns 0 -> fine)
  /\ (writes_succeed W -> fine -> snd run = Returns 0).
Proof.
  simpl. rewrite write_interops_run_plan.
  pose proof (run_plan_writes_succeed (plan max_cycle align) 0 []) as Hnone.
  destruct (run_plan_block (plan max_cycle align) 0 [])
    as (evs & o & Hrun & _ & _ & Hzero & Hconv & _); [done|].
  rewrite Hrun in *. simpl in *.
  split.
  - intros Ho. destruct (Hzero Ho) as [HF [?|HE]]; done.
  - intros Hw [HF HE]. apply Hconv; [by apply Hnone|done|by right].
Qed.

(** X10.  A per-cycle file that can be copied and whose records are all
    beyond [max_cycle] is copied as a set with no record, and the copy
    returns 0, so that the category counts as valid; reading that set back
    with [read_metrics_from_file], from a read that throws nothing, gives
    [EMPTY_INTEROP]. *)
Theorem cycle_copy_writes_no_record c (t : trace) :
  let m := fst (read_interop_cycle c) in
  let out := filter_by_cycle max_cycle m in
  let t1 := t ++ [read_call (cycle_metrics c)] in
  copyable (cycle_copy c) ->
  Forall (fun r => (max_cycle < cycle r)%N) (metrics m) ->
  write_interop_cycle c t1 out = None ->
  copy_cycle_metrics c max_cycle t
  = (t1 ++ [write_cycle_call c out None], Returns 0)
  /\ size out = 0%nat
  /\ (forall t' : trace,
        read_metrics_from_file (ret (out, @None exception)) t'
        = (t', Returns (exit_code EMPTY_INTEROP, out))).
Proof.
  simpl. unfold copyable, read_size, read_thrown.
  intros [Hsize Hthrown] Hall Hwrite.
  assert (cycle_subset max_cycle (metrics (read_interop_cycle c).1) = [])
    as Hnone.
  { rewrite cycle_subset_filter. apply filter_none.
    eapply List.Forall_impl; [|exact Hall]. simpl. lia. }
  split; [|split].
  - rewrite copy_cycle_metrics_run; simpl.
    apply Nat.eqb_neq in Hsize. rewrite Hsize.
    destruct Hthrown as [->| ->]; by rewrite Hwrite.
  - unfold size, filter_by_cycle. simpl. by rewrite Hnone.
  - intros t'. unfold read_metrics_from_file, mbind, M_bind, bind, ret.
    unfold size, filter_by_cycle. simpl. by rewrite Hnone.
Qed.

(** X11.  [main] exits with 1, [INVALID_ARGUMENTS], exactly when it is
    given fewer than four arguments, and then without a call into the
    library; otherwise it ends as [write_interops] does with
    [cycle_to_align = 25], whose status is never 1. *)
Theorem main_status (argc : Z) (t : trace) :
  (argc < 5 ->
   main argc max_cycle max_read t = (t, Returns (exit_code INVALID_ARGUMENTS)))
  /\ (5 <= argc ->
      main argc max_cycle max_read t
      = write_interops max_cycle max_read cycle_to_align t)
  /\ (forall r, snd (main argc max_cycle max_read t) = Returns r ->
        (r = exit_code INVALID_ARGUMENTS <-> argc < 5)).
Proof.
  assert (Hlow : argc < 5 ->
            main argc max_cycle max_read t = (t, Returns 1)).
  { intros Hargc. unfold main, ret.
    destruct (Z.leb_spec argc 1); [done|].
    by destruct (Z.ltb_spec argc 5); [|lia]. }
  assert (Hhigh : 5 <= argc ->
            main argc max_cycle max_read t
            = write_interops max_cycle max_read cycle_to_align t).
  { intros Hargc. unfold main.
    destruct (Z.leb_spec argc 1); [lia|].
    destruct (Z.ltb_spec argc 5); [lia|].
    unfold mbind, M_bind, bind, ret, cycle_to_align.
    destruct (write_interops max_cycle max_read 25 t) as [t' [res|e]];
      [|done].
    by destruct (Z.eqb_spec res (exit_code SUCCESS)) as [->|]. }
  split; [done|]. split; [done|].
  intros r Hr. destruct (Z.lt_ge_cases argc 5) as [Hargc|Hargc].
  - rewrite (Hlow Hargc) in Hr. simpl in *. by simplify_eq.
  - rewrite (Hhigh Hargc), write_interops_run_plan in Hr.
    split; [|lia]. intros ->. exfalso.
    destruct (run_plan_block (plan max_cycle cycle_to_align) 0 t)
      as (evs & o & Hrun & _ & _ & _ & _ & Hstat); [done|].
    rewrite Hrun in Hr. simpl in Hr.
    destruct (Hstat _ Hr) as [?|[?|(k & code & _ & _ & Heq & Hd)]];
      [done..|].
    assert (3 <= exit_code code <= 5) as Hfatal by (by destruct code).
    destruct (encoded_status code k Hfatal) as (Hbig & _). simpl in *. lia.
Qed.

End Calls.

(** ** The error metrics below the alignment cycle *)

Section Frame.
Context {MT : metric_types}.


End Frame.

(** ** The properties on the sample run folders *)

Lemma full_folder_writes : writes_succeed full_folder.
Proof. by split. Qed.

Lemma full_folder_copyable k : @copyable _ full_folder k.
Proof. destruct k; (split; [done|by left]). Qed.

(** The run folder with a tile file of a bad format: the status 301 says
    [BAD_FORMAT] of the tile copy. *)
Lemma failed_status_decodes_witness :
  exists k code,
    k ∈ plan 26 25
    /\ list.last (reads_of (fst (@write_interops _ bad_tile_folder 26 1 25 [])))
       = Some (category_of k)
    /\ Z.quot 301 100 = exit_code code
    /\ Z.rem 301 100 = error_type k
    /\ @diagnosis _ bad_tile_folder k
         (write_throws (fst (@write_interops _ bad_tile_folder 26 1 25 [])))
         code.
Proof.
  apply (@failed_status_decodes _ bad_tile_folder 26 1 25 301);
    [reflexivity|discriminate|discriminate].
Defined.


(** The complete run folder: its tile file is written, and can be
    copied. *)
Lemma writes_only_copyable_witness :
  tile_copy ∈ plan 26 25 /\ @copyable _ full_folder tile_copy.
Proof.
  apply (@writes_only_copyable _ full_folder 26 1 25 tile_copy).
  vm_compute. apply list_elem_of_here.
Defined.

(** The complete run folder is copied with the status 0. *)
Lemma write_interops_succeeds_witness :
  snd (@write_interops _ full_folder 26 1 25 []) = Returns 0.
Proof.
  apply (proj2 (@write_interops_succeeds _ full_folder 26 1 25)).
  - exact full_folder_writes.
  - split.
    + apply Forall_forall. intros k _. right. apply full_folder_copyable.
    + apply Exists_cons_hd. apply full_folder_copyable.
Defined.

(** The extraction metrics of cycles 1, 26 and 2 copied with
    [max_cycle = 0]: a set with no record is written, and the copy
    returns 0. *)
Lemma cycle_copy_writes_no_record_witness :
  @copy_cycle_metrics _ extraction_only_folder extraction_metrics 0 []
  = ([read_call (cycle_metrics extraction_metrics);
      write_cycle_call extraction_metrics
        (@filter_by_cycle sample_types extraction_metrics 0
           (three_cycles extraction_metrics)) None],
     Returns 0)
  /\ size (@filter_by_cycle sample_types extraction_metrics 0
             (three_cycles extraction_metrics)) = 0%nat.
Proof.
  destruct (@cycle_copy_writes_no_record _ extraction_only_folder 0
              extraction_metrics []) as (Hcopy & Hsize & _).
  - split; [discriminate|by left].
  - simpl. repeat constructor.
  - reflexivity.
  - split; [exact Hcopy|exact Hsize].
Defined.

(** [main] with one argument, and with four on the run folder with no
    InterOp file. *)
Lemma main_status_witness :
  @main _ empty_folder 2 26 1 [] = ([], Returns 1)
  /\ snd (@main _ empty_folder 5 26 1 [])
     = Returns (exit_code NO_INTEROPS_FOUND).
Proof.
  split.
  - apply (proj1 (@main_status _ empty_folder 26 1 2 [])). lia.
  - rewrite (proj1 (proj2 (@main_status _ empty_folder 26 1 5 []))) by lia.
    reflexivity.
Defined.


End DriverFacts.

(** * Properties of the parameter generator *)

Module ProxyGeneratorFacts.
Import ProxyGenerator.

Section Generator.
Context {T Proxy parent_type : Type}.
Variable call : T -> Proxy -> T * parent_type.
Variable value_initialized : parent_type.

#[local] Abbreviation generator_t := (proxy_argument_generator T Proxy parent_type).
#[local] Abbreviation Begin := (Begin call value_initialized).
#[local] Abbreviation fill := (fill call value_initialized).
#[local] Abbreviation assign := (assign call).
#[local] Abbreviation called_in_order := (called_in_order call).

Lemma generator_eq (g1 g2 : generator_t) :
  this g1 = this g2 ->
  m_vec g1 = m_vec g2 ->
  m_proxy_data g1 = m_proxy_data g2 ->
  m_object g1 = m_object g2 ->
  g1 = g2.
Proof. destruct g1, g2. simpl. by intros -> -> -> ->. Qed.

Lemma called_in_order_length obj values :
  length (snd (called_in_order obj values)) = length values.
Proof.
  revert obj. induction values as [|p rest IH]; intros obj; [done|].
  simpl. destruct (call obj p) as [obj1 v].
  specialize (IH obj1). destruct (called_in_order obj1 rest). simpl in *.
  by rewrite IH.
Qed.

(** The loop of [Begin] from the place [length done] on: the places below
    are kept, the others are assigned the parameters of the functor in
    order. *)
Lemma assign_loop address (done todo : list Proxy) (out rest : list parent_type)
    obj :
  length out = length done ->
  length rest = length todo ->
  fold_left assign (seq (length done) (length todo))
    {| this := address; m_vec := done ++ todo;
       m_proxy_data := out ++ rest; m_object := obj |}
  = {| this := address; m_vec := done ++ todo;
       m_proxy_data := out ++ snd (called_in_order obj todo);
       m_object := fst (called_in_order obj todo) |}.
Proof.
  revert done out rest obj.
  induction todo as [|p todo IH]; intros done out rest obj Hout Hrest.
  - destruct rest; [done|discriminate].
  - destruct rest as [|r rest]; [discriminate|].
    simpl. unfold ProxyGenerator.assign at 2. simpl.
    rewrite lookup_app_r by lia. rewrite Nat.sub_diag. simpl.
    destruct (call obj p) as [obj1 v] eqn:Hcall.
    rewrite <- Hout, insert_app_r_alt by lia. rewrite Nat.sub_diag. simpl.
    specialize (IH (done ++ [p]) (out ++ [v]) rest obj1).
    rewrite !length_app in IH. simpl in IH.
    rewrite <- !app_assoc in IH. simpl in IH.
    rewrite Hout.
    replace (S (length done)) with (length done + 1)%nat by lia.
    rewrite IH by (simpl in *; lia).
    by destruct (called_in_order obj1 todo).
Qed.

Lemma fill_empty (g : generator_t) :
  m_proxy_data g = [] ->
  fill g
  = {| this := this g; m_vec := m_vec g;
       m_proxy_data := snd (called_in_order (m_object g) (m_vec g));
       m_object := fst (called_in_order (m_object g) (m_vec g)) |}.
Proof.
  intros Hempty. unfold ProxyGenerator.fill. rewrite Hempty.
  apply (assign_loop (this g) [] (m_vec g) []); [done|].
  by rewrite length_resize.
Qed.

(** X13.  The first [Begin] calls the functor once on each value of the
    vector, in the order of the vector: [m_proxy_data] becomes the
    parameters that the calls gave, one for each value, and the functor is
    left as the last call left it. *)
Theorem Begin_calls_in_order (g : generator_t) :
  m_proxy_data g = [] ->
  let g' := fst (Begin g) in
  let calls := called_in_order (m_object g) (m_vec g) in
  m_proxy_data g' = snd calls
  /\ m_object g' = fst calls
  /\ m_vec g' = m_vec g
  /\ this g' = this g
  /\ length (m_proxy_data g') = length (m_vec g).
Proof.
  intros Hempty. simpl. unfold ProxyGenerator.Begin. simpl.
  rewrite bool_decide_eq_true_2 by done.
  rewrite (fill_empty g Hempty). simpl.
  by rewrite called_in_order_length.
Qed.

(** X14.  A second [Begin] changes nothing and gives the iterator of the
    first: the functor is called at most once for a value.  When the
    vector was not empty at the first [Begin], the parameters stay as they
    are whatever the vector has become since. *)
Theorem Begin_once (g : generator_t) :
  Begin (fst (Begin g)) = Begin g
  /\ (forall vec,
        m_vec g <> [] ->
        fst (Begin (with_vec vec (fst (Begin g))))
        = with_vec vec (fst (Begin g))).
Proof.
  assert (Hkept : forall g1 : generator_t,
             m_proxy_data g1 <> [] -> Begin g1 = (g1, iterator_at g1 0)).
  { intros g1 Hfull. unfold ProxyGenerator.Begin.
    by rewrite bool_decide_eq_false_2. }
  split.
  - destruct (decide (m_proxy_data g = [])) as [Hempty|Hfull].
    + destruct (Begin_calls_in_order g Hempty)
        as (Hdata & Hobj & Hvec & Hthis & Hlen).
      destruct (decide (m_proxy_data (fst (Begin g)) = []))
        as [Hempty1|Hfull1].
      * destruct (Begin_calls_in_order _ Hempty1)
          as (Hdata2 & Hobj2 & Hvec2 & Hthis2 & _).
        rewrite Hempty1 in Hlen. rewrite Hvec in *.
        destruct (m_vec g); [|discriminate]. simpl in *.
        assert (fst (Begin (fst (Begin g))) = fst (Begin g)) as Hsame.
        { apply generator_eq; simpl in *; congruence. }
        unfold ProxyGenerator.Begin in *. simpl in *. by rewrite Hsame.
      * rewrite (Hkept _ Hfull1). unfold ProxyGenerator.Begin. done.
    + rewrite (Hkept g Hfull). simpl. by rewrite (Hkept g Hfull).
  - intros vec Hvec.
    assert (m_proxy_data (fst (Begin g)) <> []) as Hfull.
    { destruct (decide (m_proxy_data g = [])) as [Hempty|Hfull].
      - destruct (Begin_calls_in_order g Hempty) as (_ & _ & _ & _ & Hlen).
        intros Hnil. rewrite Hnil in Hlen. by destruct (m_vec g).
      - by rewrite (Hkept g Hfull). }
    by rewrite (Hkept (with_vec vec (fst (Begin g)))).
Qed.

(** The position of an iterator after [i] calls of [Advance]. *)
Lemma Advance_iter (i : nat) (it : proxy_argument_iterator parent_type) :
  m_base (Nat.iter i Advance it) = m_base it
  /\ m_current (Nat.iter i Advance it) = (i + m_current it)%nat.
Proof.
  induction i as [|i [IHbase IHcurrent]]; [done|].
  simpl. by rewrite IHbase, IHcurrent.
Qed.

(** X15.  From [Begin], [i] calls of [Advance] give an iterator that
    [Equals] the one of [End] exactly when [i] is the number of
    parameters, and whose [Current] is the parameter at the place [i],
    undefined from the end on. *)
Theorem Advance_reaches_End (g : generator_t) (i : nat) :
  let g' := fst (Begin g) in
  let it := Nat.iter i Advance (snd (Begin g)) in
  Equals it (End_ g') = bool_decide (i = length (m_proxy_data g'))
  /\ snd <$> Current g' it = m_proxy_data g' !! i.
Proof.
  intros g' it.
  destruct (Advance_iter i (snd (Begin g))) as [Hbase Hcurrent].
  fold it in Hbase, Hcurrent.
  change (m_base (snd (Begin g))) with (this g') in Hbase.
  change (m_current (snd (Begin g))) with 0%nat in Hcurrent.
  rewrite Nat.add_0_r in Hcurrent.
  unfold ProxyGenerator.Equals, ProxyGenerator.Current, BaseGenerator.
  rewrite Hbase, Hcurrent. unfold End_, iterator_at. simpl.
  rewrite N.eqb_refl. simpl.
  split.
  - case_bool_decide as Hi.
    + by apply Nat.eqb_eq.
    + by apply Nat.eqb_neq.
  - by destruct (_ !! i).
Qed.

End Generator.

(** A new generator of the values 1, 2 and 3 with the counting functor:
    the parameters are 10, 21 and 32, after three calls. *)
Lemma Begin_calls_in_order_witness :
  let g' := fst (Begin counting 0%nat three_parameters) in
  m_proxy_data g' = [10; 21; 32]%nat
  /\ m_object g' = 3%nat
  /\ m_vec g' = [1; 2; 3]%nat
  /\ this g' = 4096%N
  /\ length (m_proxy_data g') = 3%nat.
Proof.
  apply (Begin_calls_in_order counting 0%nat three_parameters).
  reflexivity.
Defined.

(** The generator of 10, 21 and 32 keeps them when its vector grows. *)
Lemma Begin_once_witness :
  m_proxy_data
    (fst (Begin counting 0%nat
            (with_vec [1; 2; 3; 4]%nat
               (fst (Begin counting 0%nat three_parameters)))))
  = [10; 21; 32]%nat.
Proof.
  rewrite (proj2 (Begin_once counting 0%nat three_parameters));
    [reflexivity|discriminate].
Defined.

End ProxyGeneratorFacts.
